(** * deep-diffs: marker tracking across revisions and interval rendering

    A shallow embedding of [src/deep-diff.js].

    - JavaScript strings are sequences of UTF-16 code units ([list N]);
      [text.length] is the number of code units.
    - Marker positions and lengths are JavaScript numbers holding integers;
      they are modelled by [Z].
    - [Marker] objects live in a store (a finite map from references to
      marker values); the [markers] array holds references, so that in-place
      mutation and aliasing are visible. *)

From Stdlib Require Import ZArith QArith List Lia Ascii String.
From stdpp Require Import base list gmap strings sorting.

Local Open Scope Z_scope.

(** ** JavaScript strings *)

Module JS.

(** A string is its sequence of UTF-16 code units. *)
Abbreviation jsstring := (list N).

(** ASCII literals. *)
Definition str (s : string) : jsstring :=
  Ascii.N_of_ascii <$> String.list_ascii_of_string s.

(** [s.length] *)
Definition len (s : jsstring) : Z := Z.of_nat (length s).

(** White space and line terminators, as [String.prototype.trim] sees
    them (all of them are single code units). *)
Definition isWhiteSpace (u : N) : bool :=
  ((u =? 9) || (u =? 10) || (u =? 11) || (u =? 12) || (u =? 13)
   || (u =? 32) || (u =? 160) || (u =? 5760)
   || ((8192 <=? u) && (u <=? 8202))
   || (u =? 8232) || (u =? 8233) || (u =? 8239) || (u =? 8287)
   || (u =? 12288) || (u =? 65279))%N.

Fixpoint trimStart (s : jsstring) : jsstring :=
  match s with
  | u :: s' => if isWhiteSpace u then trimStart s' else s
  | [] => []
  end.

(** [s.trim()] *)
Definition trim (s : jsstring) : jsstring :=
  reverse (trimStart (reverse (trimStart s))).

(** Surrogate code units. *)
Definition isHighSurrogate (u : N) : bool := ((55296 <=? u) && (u <=? 56319))%N.
Definition isLowSurrogate (u : N) : bool := ((56320 <=? u) && (u <=? 57343))%N.

(** [[...s]]: the string iterator yields one string per code point; a high
    surrogate followed by a low surrogate is one code point of two code
    units, every other code unit (lone surrogates too) stands alone. *)
Fixpoint codePoints (s : jsstring) : list jsstring :=
  match s with
  | [] => []
  | u :: s' =>
      match s' with
      | v :: s'' =>
          if isHighSurrogate u && isLowSurrogate v
          then [u; v] :: codePoints s''
          else [u] :: codePoints s'
      | [] => [[u]]
      end
  end.

(** A relative index of [slice], clamped to the array: negative indices
    count from the end. *)
Definition relIndex (n i : Z) : Z :=
  if i <? 0 then Z.max (n + i) 0 else Z.min i n.

(** [a.slice(from, to)] *)
Definition slice {A} (a : list A) (from to : Z) : list A :=
  let n := Z.of_nat (length a) in
  let k := relIndex n from in
  let final := relIndex n to in
  take (Z.to_nat (final - k)) (drop (Z.to_nat k) a).

(** [a.slice(from)] *)
Definition sliceFrom {A} (a : list A) (from : Z) : list A :=
  slice a from (Z.of_nat (length a)).

(** [a.join('')] *)
Definition join (a : list jsstring) : jsstring := concat a.

(** [s.replace(/c/g, by)] for a pattern of one character. *)
Definition replaceAll (c : N) (by_ : jsstring) (s : jsstring) : jsstring :=
  flat_map (fun u => if (u =? c)%N then by_ else [u]) s.

(** Values an options object holds. *)
Inductive JsVal :=
| VUndefined
| VBool (b : bool)
| VNum (q : Q)
| VStr (s : jsstring).

(** ToBoolean *)
Definition truthy (v : JsVal) : bool :=
  match v with
  | VUndefined => false
  | VBool b => b
  | VNum q => negb (Qeq_bool q (inject_Z 0))
  | VStr s => negb (bool_decide (s = []))
  end.

(** A destructuring pattern [{ key = dflt } = obj]: the default is taken
    when the property is missing or [undefined]. *)
Definition destructure (obj : gmap string JsVal) (key : string)
    (dflt : JsVal) : JsVal :=
  match obj !! key with
  | None | Some VUndefined => dflt
  | Some v => v
  end.

End JS.
Import JS.

(** ** Markers *)

(** [class Marker]: [start] and [end] are inclusive indices. *)
Record Marker := mkMarker { start : Z; end_ : Z; enabled : bool }.

(** [new Marker(start, end)] *)
Definition newMarker (s e : Z) : Marker := mkMarker s e true.

(** [get length()] *)
Definition Marker_length (m : Marker) : Z := end_ m - start m + 1.

(** [shift(delta)] *)
Definition shift (delta : Z) (m : Marker) : Marker :=
  mkMarker (start m + delta) (end_ m + delta) (enabled m).

(** [expand(delta)] *)
Definition expand (delta : Z) (m : Marker) : Marker :=
  mkMarker (start m) (end_ m + delta) (enabled m).

(** [contract(delta)] *)
Definition contract (delta : Z) (m : Marker) : Marker :=
  let m' := mkMarker (start m) (end_ m - delta) (enabled m) in
  if Marker_length m' <=? 0 then mkMarker (start m') (end_ m') false else m'.

(** [marker.enabled = false] *)
Definition disable (m : Marker) : Marker := mkMarker (start m) (end_ m) false.

(** ** Edit operations *)

Definition DIFF_DELETE : Z := -1.
Definition DIFF_INSERT : Z := 1.
Definition DIFF_EQUAL : Z := 0.

(** One entry [[op, text]] of a diff. *)
Definition Diff : Type := Z * list N.

(** ** The marker transformer *)

(** The body of the inner loop of [transformMarkers]: one diff entry applied
    to the marker under replay and its private cursor [index]. *)
Definition transformStep (st : Marker * Z) (d : Diff) : Marker * Z :=
  let '(marker, index) := st in
  let '(op, text) := d in
  let len := len text in
  if op =? DIFF_INSERT then
    ((if index <=? start marker then shift len marker
      else if (index >? start marker) && (index <=? end_ marker)
           then expand len marker
           else marker),
     index + len)
  else if op =? DIFF_DELETE then
    let delEnd := index + len - 1 in
    ((if delEnd <? start marker then shift (- len) marker
      else if index >? end_ marker then marker
      else if (index <=? start marker) && (delEnd >=? end_ marker)
           then disable marker
      else if (index <=? start marker) && (delEnd <? end_ marker) then
        let preOverlap := start marker - index in
        let overlap := delEnd - start marker + 1 in
        contract overlap (shift (- preOverlap) marker)
      else if (index >? start marker) && (delEnd >=? end_ marker) then
        let overlap := end_ marker - index + 1 in
        contract overlap marker
      else contract len marker),
     index)
  else (marker, index + len).

(** The inner loop: the whole diff replayed on one marker, cursor from [c]. *)
Definition replayFrom (c : Z) (diffs : list Diff) (m : Marker) : Marker * Z :=
  fold_left transformStep diffs (m, c).

Definition replay (diffs : list Diff) (m : Marker) : Marker :=
  fst (replayFrom 0 diffs m).

(** The body of the outer loop for one marker value: disabled markers are
    skipped ([continue]). *)
Definition transformMarker (diffs : list Diff) (m : Marker) : Marker :=
  if enabled m then replay diffs m else m.

(** ** Sorting with a comparator *)

(** [Array.prototype.sort(cmp)], as a stable insertion sort: an element is
    placed in front of the first element that the comparator puts strictly
    after it. *)
Section SortBy.
Context {A : Type} (cmp : A -> A -> Z).

Fixpoint insertBy (x : A) (l : list A) : list A :=
  match l with
  | [] => [x]
  | y :: l' => if cmp y x >? 0 then x :: y :: l' else y :: insertBy x l'
  end.

Definition sortBy (l : list A) : list A :=
  fold_left (fun acc x => insertBy x acc) l [].
End SortBy.

(** ** The marker store *)

(** The objects created by [new Marker], by reference, and the [markers]
    array of the driver, which holds references. *)
Record Store := mkStore { heap : gmap nat Marker; markers : list nat }.

Definition emptyStore : Store := mkStore ∅ [].

(** The value a reference points to; references in the array are never
    dangling, the default is not reached on a well-formed store. *)
Definition deref (h : gmap nat Marker) (l : nat) : Marker :=
  default (mkMarker 0 0 false) (h !! l).

(** [(a, b) => a.start - b.start] *)
Definition byStart (h : gmap nat Marker) (a b : nat) : Z :=
  start (deref h a) - start (deref h b).

(** One iteration of [for (const marker of markers)]: the object behind the
    reference is mutated in place. *)
Definition transformAt (diffs : list Diff) (h : gmap nat Marker) (l : nat)
  : gmap nat Marker :=
  match h !! l with
  | Some m => if enabled m then <[l := replay diffs m]> h else h
  | None => h
  end.

(** [transformMarkers(markers, diffs)] *)
Definition transformMarkers (s : Store) (diffs : list Diff) : Store :=
  let sorted := sortBy (byStart (heap s)) (markers s) in
  mkStore (fold_left (transformAt diffs) sorted (heap s)) sorted.

(** ** The insertion marker generator *)

(** [markers.push(new Marker(s, e))] *)
Definition pushMarker (m : Marker) (s : Store) : Store :=
  let l := fresh (dom (heap s)) in
  mkStore (<[l := m]> (heap s)) (markers s ++ [l]).

(** The loop body of [addInsertionMarkers]. *)
Definition addStep (st : Store * Z) (d : Diff) : Store * Z :=
  let '(s, index) := st in
  let '(op, text) := d in
  if op =? DIFF_INSERT then
    (pushMarker (newMarker index (index + len text - 1)) s, index + len text)
  else if op =? DIFF_EQUAL then (s, index + len text)
  else (s, index).

(** [addInsertionMarkers(markers, diffs)] *)
Definition addInsertionMarkers (s : Store) (diffs : list Diff) : Store :=
  fst (fold_left addStep diffs (s, 0)).

(** ** The revision driver *)

(** The two settings of the [DiffMatchPatch] object the driver assigns. *)
Record Dmp := mkDmp { Diff_Timeout : JsVal; Diff_EditCost : Z }.

(** [{ text, markers }] *)
Record DeepDiffResult := mkResult { text : list N; result_markers : list Marker }.

(** One call of [dmp.diff_main], as the engine sees it. *)
Record EngineCall := mkCall { call_dmp : Dmp; call_old : list N; call_new : list N }.

Section Driver.
(** The diff engine (package [diff-match-patch]) is an external
    collaborator; its three entry points are parameters. The two clean-up
    passes rewrite the diff array in place. *)
Variable diff_main : Dmp -> list N -> list N -> list Diff.
Variable diff_cleanupSemantic : Dmp -> list Diff -> list Diff.
Variable diff_cleanupEfficiency : Dmp -> list Diff -> list Diff.

(** The body of [for (let i = 1; i < texts.length; i++)], on the pair
    [(texts[i - 1], texts[i])]; the calls of the engine are logged. *)
Definition revisionStep (dmp : Dmp) (st : Store * list EngineCall)
    (pair : list N * list N) : Store * list EngineCall :=
  let '(s, calls) := st in
  let '(old, new) := pair in
  let diffs := diff_main dmp old new in
  let diffs := diff_cleanupSemantic dmp diffs in
  let diffs := diff_cleanupEfficiency dmp diffs in
  let s := transformMarkers s diffs in
  let s := addInsertionMarkers s diffs in
  (s, calls ++ [mkCall dmp old new]).

(** [computeDeepDiff(revisions, options)], with the log of engine calls. *)
Definition computeDeepDiff (revisions : list (list N))
    (options : gmap string JsVal) : DeepDiffResult * list EngineCall :=
  let skipEmpty := destructure options "skipEmpty" (VBool true) in
  let timeout := destructure options "timeout" (VNum (inject_Z 1)) in
  let dmp := mkDmp timeout 4 in
  let texts :=
    List.filter (fun r => negb (truthy skipEmpty) || (len r >? 0))
      (trim <$> revisions) in
  if Z.of_nat (length texts) <? 2 then
    (mkResult
       (match texts !! 0%nat with
        | Some t => if truthy (VStr t) then t else []
        | None => []
        end) [], [])
  else
    let '(s, calls) :=
      fold_left (revisionStep dmp) (zip texts (tail texts)) (emptyStore, []) in
    (mkResult (List.last texts [])
       (List.filter enabled (deref (heap s) <$> markers s)), calls).
End Driver.

(** ** The interval renderer *)

(** [escapeHtml(str)] *)
Definition escapeHtml (s : list N) : list N :=
  replaceAll 34 (str "&quot;")
    (replaceAll 62 (str "&gt;")
       (replaceAll 60 (str "&lt;")
          (replaceAll 38 (str "&amp;") s))).

Inductive EventType := open | close.

(** A boundary event [{ index, type }]. *)
Record Event := mkEvent { index : Z; type : EventType }.

(** The comparator of [events.sort]. *)
Definition eventCmp (a b : Event) : Z :=
  if negb (index a =? index b) then index a - index b
  else match type a with close => -1 | open => 1 end.

(** [{ tagName, className }]; [None] is a missing property. *)
Record RenderOptions := mkRenderOptions {
  tagName : option (list N);
  className : option (list N) }.

Definition defaultOptions : RenderOptions := mkRenderOptions None None.

(** The two events pushed for one marker. *)
Definition markerEvents (marker : Marker) : list Event :=
  [mkEvent (start marker) open; mkEvent (end_ marker + 1) close].

(** The tag literals. *)
Definition openTagOf (options : RenderOptions) : list N :=
  let tagName := default (str "ins") (tagName options) in
  let className := default (str "deep-diff") (className options) in
  if truthy (VStr className)
  then str "<" ++ tagName ++ str " class=" ++ [34%N] ++ className ++ [34%N] ++ str ">"
  else str "<" ++ tagName ++ str ">".

Definition closeTagOf (options : RenderOptions) : list N :=
  let tagName := default (str "ins") (tagName options) in
  str "</" ++ tagName ++ str ">".

(** The body of [for (const event of events)]. *)
Definition renderStep (chars : list (list N)) (openTag closeTag : list N)
    (st : list N * Z) (event : Event) : list N * Z :=
  let '(result, pos) := st in
  let '(result, pos) :=
    if index event >? pos
    then (result ++ escapeHtml (join (slice chars pos (index event))), index event)
    else (result, pos) in
  (result ++ match type event with open => openTag | close => closeTag end, pos).

(** The sorted boundary events of a marker list. *)
Definition sortedEvents (markers : list Marker) : list Event :=
  let activeMarkers := List.filter enabled markers in
  sortBy eventCmp (flat_map markerEvents activeMarkers).

(** [renderWithMarkers(text, markers, options)] *)
Definition renderWithMarkers (text : list N) (markers : list Marker)
    (options : RenderOptions) : list N :=
  let activeMarkers := List.filter enabled markers in
  if (length activeMarkers =? 0)%nat then escapeHtml text
  else
    let events := sortBy eventCmp (flat_map markerEvents activeMarkers) in
    let chars := codePoints text in
    let openTag := openTagOf options in
    let closeTag := closeTagOf options in
    let '(result, pos) :=
      fold_left (renderStep chars openTag closeTag) events ([], 0) in
    if pos <? Z.of_nat (length chars)
    then result ++ escapeHtml (join (sliceFrom chars pos))
    else result.

(** ** The convenience composition *)

(** A property read as a string option of the renderer: a missing or
    [undefined] property is [None] (the default applies); a property that
    holds anything but a string is outside the declared type
    [RenderOptions], and the model does not follow it into the template
    literals. *)
Definition stringProperty (v : option JsVal) : option (option (list N)) :=
  match v with
  | None | Some VUndefined => Some None
  | Some (VStr s) => Some (Some s)
  | Some (VBool _) | Some (VNum _) => None
  end.

(** The renderer's view of an options object. *)
Definition renderOptionsOf (options : gmap string JsVal)
  : option RenderOptions :=
  match stringProperty (options !! "tagName"),
        stringProperty (options !! "className") with
  | Some t, Some c => Some (mkRenderOptions t c)
  | _, _ => None
  end.

Section Html.
Variable diff_main : Dmp -> list N -> list N -> list Diff.
Variable diff_cleanupSemantic : Dmp -> list Diff -> list Diff.
Variable diff_cleanupEfficiency : Dmp -> list Diff -> list Diff.

(** [deepDiffHtml(revisions, options)]: one options object serves the
    driver and the renderer. [None] only for options outside the declared
    types (see [stringProperty]). *)
Definition deepDiffHtml (revisions : list (list N))
    (options : gmap string JsVal) : option (list N) :=
  let r :=
    (computeDeepDiff diff_main diff_cleanupSemantic diff_cleanupEfficiency
       revisions options).1 in
  match renderOptionsOf options with
  | Some renderOptions =>
      Some (renderWithMarkers (text r) (result_markers r) renderOptions)
  | None => None
  end.
End Html.

(** * Vocabulary of the specification *)

(** The cursor of a walk over [diffs] in the coordinates of the new text:
    the lengths of the Kept and Inserted spans. *)
Definition newLength (diffs : list Diff) : Z :=
  foldr (fun d acc =>
           (if (d.1 =? DIFF_INSERT) || (d.1 =? DIFF_EQUAL) then len d.2 else 0)
           + acc) 0 diffs.

(** The number of Inserted spans. *)
Definition insertCount (diffs : list Diff) : nat :=
  length (List.filter (fun d : Diff => d.1 =? DIFF_INSERT) diffs).

(** The marker values [addInsertionMarkers] creates, in creation order, for
    a walk that starts with the cursor at [index]. *)
Fixpoint insertionMarkers (index : Z) (diffs : list Diff) : list Marker :=
  match diffs with
  | [] => []
  | (op, text) :: diffs' =>
      if op =? DIFF_INSERT then
        newMarker index (index + len text - 1)
          :: insertionMarkers (index + len text) diffs'
      else if op =? DIFF_EQUAL then insertionMarkers (index + len text) diffs'
      else insertionMarkers index diffs'
  end.

(** Every span of the diff carries some text. *)
Definition nonEmptySpans (diffs : list Diff) : Prop :=
  Forall (fun d : Diff => d.2 <> []) diffs.

(** The marker invariant of the data model: an enabled marker covers at
    least one position. *)
Definition markerInvariant (m : Marker) : Prop :=
  enabled m = true -> 1 <= Marker_length m.

(** Every reference of the array points to a marker that satisfies the
    invariant. *)
Definition storeInvariant (s : Store) : Prop :=
  forall l, l ∈ markers s ->
    exists m, heap s !! l = Some m /\ markerInvariant m.

(** One pass of the driver over a diff: transform, then generate. *)
Definition applyDiffs (s : Store) (diffs : list Diff) : Store :=
  addInsertionMarkers (transformMarkers s diffs) diffs.

(** The revisions the driver works on: trimmed, and without the empty ones
    when [skipEmpty] is enabled. *)
Definition usableRevisions (revisions : list (list N))
    (options : gmap string JsVal) : list (list N) :=
  List.filter
    (fun r => negb (truthy (destructure options "skipEmpty" (VBool true)))
              || negb (bool_decide (r = [])))
    (trim <$> revisions).

(** A diff engine for examples: the old text is deleted and the new one is
    inserted, and the clean-up passes change nothing. *)
Definition replaceAllEngine (dmp : Dmp) (old new : list N) : list Diff :=
  [(DIFF_DELETE, old); (DIFF_INSERT, new)].

Definition noCleanup (dmp : Dmp) (diffs : list Diff) : list Diff := diffs.

(** *** The renderer's output, piece by piece *)

(** What the renderer appends to [result]: a run of code points of the text
    (appended escaped) or the tag of a boundary event. *)
Inductive Piece :=
| PText (cs : list (list N))
| PTag (e : Event).

(** The sweep over the sorted events, from the cursor [pos] on, with the
    trailing text. *)
Fixpoint sweep (chars : list (list N)) (pos : Z) (events : list Event)
  : list Piece :=
  match events with
  | [] =>
      if pos <? Z.of_nat (length chars) then [PText (sliceFrom chars pos)]
      else []
  | e :: events' =>
      if index e >? pos
      then PText (slice chars pos (index e)) :: PTag e
             :: sweep chars (index e) events'
      else PTag e :: sweep chars pos events'
  end.

Definition renderPieces (text : list N) (markers : list Marker) : list Piece :=
  sweep (codePoints text) 0 (sortedEvents markers).

(** The string a piece stands for. *)
Definition pieceString (options : RenderOptions) (p : Piece) : list N :=
  match p with
  | PText cs => escapeHtml (join cs)
  | PTag e =>
      match type e with
      | open => openTagOf options
      | close => closeTagOf options
      end
  end.

(** The tags of a piece list, in order, and its text, unescaped. *)
Definition tagsOf (pieces : list Piece) : list Event :=
  omap (fun p => match p with PTag e => Some e | PText _ => None end) pieces.

Definition rawText (pieces : list Piece) : list (list N) :=
  concat (omap (fun p => match p with PText cs => Some cs | PTag _ => None end)
            pieces).

(** *** Nesting *)

(** The order of the sorted events: by position, and at one position a
    close event never comes after an open event. *)
Definition eventLe (a b : Event) : Prop :=
  index a < index b \/
  (index a = index b /\ (type a = close \/ type b = open)).

(** A marker as the half-open interval of its two event positions. *)
Definition interval (m : Marker) : Z * Z := (start m, end_ m + 1).





(** A marker within the code points of the text. *)
Definition inBounds (chars : list (list N)) (m : Marker) : Prop :=
  0 <= start m /\ start m <= end_ m /\ end_ m < Z.of_nat (length chars).

(** Reading a tag sequence as a parser of the output does: an open tag is
    pushed, a close tag closes the most recently opened tag that is still
    open. The result lists, per close tag, the positions of the open tag it
    matches and of itself; [None] when a close tag finds nothing to close or
    a tag stays open. *)
Fixpoint matchTags (stack : list Z) (tags : list Event)
  : option (list (Z * Z)) :=
  match tags with
  | [] => match stack with [] => Some [] | _ :: _ => None end
  | e :: tags' =>
      match type e with
      | open => matchTags (index e :: stack) tags'
      | close =>
          match stack with
          | [] => None
          | o :: stack' => cons (o, index e) <$> matchTags stack' tags'
          end
      end
  end.

(** *** Undoing the rendering *)

(** [html.replace(/<[^>]+>/g, '')], the tag stripper of the test suite:
    [pending] holds, most recent first, what was read since a ['<'] that
    may open a tag. *)
Fixpoint stripTagsFrom (pending : option (list N)) (s : list N) : list N :=
  match s with
  | [] =>
      match pending with
      | None => []
      | Some buf => 60%N :: reverse buf
      end
  | u :: s' =>
      match pending with
      | None =>
          if (u =? 60)%N then stripTagsFrom (Some []) s'
          else u :: stripTagsFrom None s'
      | Some buf =>
          if (u =? 62)%N then
            match buf with
            | [] => 60%N :: 62%N :: stripTagsFrom None s'
            | _ :: _ => stripTagsFrom None s'
            end
          else stripTagsFrom (Some (u :: buf)) s'
      end
  end.

Definition stripTags (s : list N) : list N := stripTagsFrom None s.

Fixpoint isPrefix (p s : list N) : bool :=
  match p, s with
  | [], _ => true
  | a :: p', b :: s' => (a =? b)%N && isPrefix p' s'
  | _ :: _, [] => false
  end.

(** The inverse of [escapeHtml]: the four entities are decoded in one pass;
    [skip] counts the code units of an entity still to pass over. *)
Fixpoint unescapeFrom (skip : nat) (s : list N) : list N :=
  match s with
  | [] => []
  | u :: s' =>
      match skip with
      | S k => unescapeFrom k s'
      | O =>
          if (u =? 38)%N then
            if isPrefix (str "amp;") s' then 38%N :: unescapeFrom 4 s'
            else if isPrefix (str "lt;") s' then 60%N :: unescapeFrom 3 s'
            else if isPrefix (str "gt;") s' then 62%N :: unescapeFrom 3 s'
            else if isPrefix (str "quot;") s' then 34%N :: unescapeFrom 5 s'
            else u :: unescapeFrom 0 s'
          else u :: unescapeFrom 0 s'
      end
  end.

Definition unescapeHtml (s : list N) : list N := unescapeFrom 0 s.

(** The escape of one code unit. *)
Definition escapeUnit (u : N) : list N :=
  if (u =? 38)%N then str "&amp;"
  else if (u =? 60)%N then str "&lt;"
  else if (u =? 62)%N then str "&gt;"
  else if (u =? 34)%N then str "&quot;"
  else [u].


(** Tag and class names under which the output can be told from its tags:
    no ['>'] inside, and a tag name that is not empty. *)
Definition tagSafe (options : RenderOptions) : Prop :=
  default (str "ins") (tagName options) <> [] /\
  Forall (fun v => v <> 62%N) (default (str "ins") (tagName options)) /\
  Forall (fun v => v <> 62%N) (default (str "deep-diff") (className options)).

(** The marker array of the driver holds no reference twice and no dangling
    reference. *)
Definition storeWellFormed (s : Store) : Prop :=
  NoDup (markers s) /\ forall l, l ∈ markers s -> is_Some (heap s !! l).

(** *** Diffs and the texts they relate *)

(** The three op codes of the diff engine. *)
Definition validOps (diffs : list Diff) : Prop :=
  Forall (fun d : Diff =>
            d.1 = DIFF_EQUAL \/ d.1 = DIFF_INSERT \/ d.1 = DIFF_DELETE) diffs.

(** The length of the old text: the Kept and Deleted spans. *)
Definition oldLength (diffs : list Diff) : Z :=
  foldr (fun d acc =>
           (if (d.1 =? DIFF_DELETE) || (d.1 =? DIFF_EQUAL) then len d.2 else 0)
           + acc) 0 diffs.

(** The old and the new text a diff relates: the Kept spans with the
    Deleted ones, and with the Inserted ones. *)
Definition oldText (diffs : list Diff) : list N :=
  flat_map (fun d : Diff =>
              if (d.1 =? DIFF_DELETE) || (d.1 =? DIFF_EQUAL) then d.2 else [])
    diffs.

Definition newText (diffs : list Diff) : list N :=
  flat_map (fun d : Diff =>
              if (d.1 =? DIFF_INSERT) || (d.1 =? DIFF_EQUAL) then d.2 else [])
    diffs.

(** What the driver needs of the diff engine with its clean-up passes: the
    diff of [old] and [new] is made of the three op codes, reconstructs both
    texts, and has no empty Inserted span. *)
Definition engineContract
    (diff_main : Dmp -> list N -> list N -> list Diff)
    (diff_cleanupSemantic diff_cleanupEfficiency : Dmp -> list Diff -> list Diff)
  : Prop :=
  forall dmp old new,
    let diffs :=
      diff_cleanupEfficiency dmp
        (diff_cleanupSemantic dmp (diff_main dmp old new)) in
    validOps diffs /\ oldText diffs = old /\ newText diffs = new /\
    Forall (fun d : Diff => d.1 = DIFF_INSERT -> d.2 <> []) diffs.

(** A second diff engine for examples, which meets the contract: as
    [replaceAllEngine], without the empty spans. *)
Definition replaceEngine (dmp : Dmp) (old new : list N) : list Diff :=
  List.filter (fun d : Diff => negb (bool_decide (d.2 = [])))
    [(DIFF_DELETE, old); (DIFF_INSERT, new)].

(** An enabled marker lies within a text of [n] code units. *)
Definition markerWithin (n : Z) (m : Marker) : Prop :=
  enabled m = true -> 0 <= start m /\ start m <= end_ m /\ end_ m < n.

Definition storeWithin (n : Z) (s : Store) : Prop :=
  forall l, l ∈ markers s -> exists m, heap s !! l = Some m /\ markerWithin n m.

(** *** Counting *)

Definition countIf {A} (f : A -> bool) (l : list A) : Z :=
  Z.of_nat (length (List.filter f l)).

Definition isOpen (e : Event) : bool :=
  match type e with open => true | close => false end.

Definition isClose (e : Event) : bool :=
  match type e with open => false | close => true end.

(** The number of tags still open after [pieces]. *)
Definition depthAfter (pieces : list Piece) : Z :=
  countIf isOpen (tagsOf pieces) - countIf isClose (tagsOf pieces).

(** The number of enabled markers that cover position [i]. *)
Definition coverCount (markers : list Marker) (i : Z) : Z :=
  countIf (fun m => (start m <=? i) && (i <=? end_ m))
    (List.filter enabled markers).

(** *** Reading the rendered string *)

(** What a reader of the HTML string sees: the code units of the text, and
    tags. *)
Inductive Token :=
| TChar (u : N)
| TOpen
| TClose.

(** The kind of a tag whose body, between ['<'] and ['>'], was read into
    [buf], most recent code unit first: a body that starts with ['/'] is a
    close tag. *)
Definition tagToken (buf : list N) : Token :=
  match reverse buf with
  | u :: _ => if (u =? 47)%N then TClose else TOpen
  | [] => TOpen
  end.

(** The tokens of a string; tags are recognised as [stripTagsFrom]
    recognises them. *)
Fixpoint htmlTokensFrom (pending : option (list N)) (s : list N)
  : list Token :=
  match s with
  | [] =>
      match pending with
      | None => []
      | Some buf => TChar <$> (60%N :: reverse buf)
      end
  | u :: s' =>
      match pending with
      | None =>
          if (u =? 60)%N then htmlTokensFrom (Some []) s'
          else TChar u :: htmlTokensFrom None s'
      | Some buf =>
          if (u =? 62)%N then
            match buf with
            | [] => TChar 60%N :: TChar 62%N :: htmlTokensFrom None s'
            | _ :: _ => tagToken buf :: htmlTokensFrom None s'
            end
          else htmlTokensFrom (Some (u :: buf)) s'
      end
  end.

Definition htmlTokens (s : list N) : list Token := htmlTokensFrom None s.




Definition isTOpen (t : Token) : bool :=
  match t with TOpen => true | _ => false end.

Definition isTClose (t : Token) : bool :=
  match t with TClose => true | _ => false end.

(** The number of tags of the string [s] that are open at its end. *)
Definition stringDepth (s : list N) : Z :=
  countIf isTOpen (htmlTokens s) - countIf isTClose (htmlTokens s).


(** The tokens of a piece, and the tags of a piece list with the escaped
    text in front of each. *)
Definition pieceTokens (p : Piece) : list Token :=
  match p with
  | PText cs => TChar <$> escapeHtml (join cs)
  | PTag e => [match type e with open => TOpen | close => TClose end]
  end.


(** Tag and class names with which the tags of the output read as tags:
    [tagSafe], and a tag name that does not start with ['/']. *)
Definition tagProper (options : RenderOptions) : Prop :=
  tagSafe options /\
  head (default (str "ins") (tagName options)) <> Some 47%N.

(** * Properties *)

(** ** Basic facts *)

Lemma len_nonneg (s : list N) : 0 <= len s.
Proof. unfold len. lia. Qed.

Lemma len_pos (s : list N) : s <> [] -> 1 <= len s.
Proof. destruct s; [done|]. unfold len. simpl. lia. Qed.

Lemma StronglySorted_lookup_lt {A} (R : A -> A -> Prop) (l : list A)
    (j k : nat) (a b : A) :
  StronglySorted R l -> (j < k)%nat -> l !! j = Some a -> l !! k = Some b ->
  R a b.
Proof.
  intros Hs. revert j k.
  induction Hs as [|x l Hs IH Hall]; intros j k Hjk Ha Hb; [done|].
  destruct k as [|k]; [lia|]. simpl in Hb.
  destruct j as [|j]; simpl in Ha.
  - inversion Ha; subst. rewrite Forall_forall in Hall.
    apply Hall. by eapply list_elem_of_lookup_2.
  - apply (IH j k); [lia|done..].
Qed.

Ltac zcases :=
  repeat match goal with
    | |- context [?a >? ?b] => rewrite (Z.gtb_ltb a b)
    | |- context [?a >=? ?b] => rewrite (Z.geb_leb a b)
    | |- context [?a <? ?b] => destruct (Z.ltb_spec a b)
    | |- context [?a <=? ?b] => destruct (Z.leb_spec a b)
    | |- context [?a =? ?b] => destruct (Z.eqb_spec a b)
    end; simpl.

(** ** The per-operation tables of the transformer *)

(** C1. A Deleted span of length [L] at cursor [c] resolves by the first row
    of the deletion table whose condition holds: entirely before the marker,
    shift left by [L]; entirely after, no change; covering it, disable;
    overlapping its start, shift left by [start - c] and contract by
    [delEnd - start + 1]; overlapping its end, contract by [end - c + 1];
    strictly inside, contract by [L]. *)
Theorem deletion_table (m : Marker) (c : Z) (t : list N) :
  enabled m = true ->
  let L := len t in
  let delEnd := c + L - 1 in
  let m' := fst (transformStep (m, c) (DIFF_DELETE, t)) in
  (delEnd < start m ->
     m' = shift (- L) m /\ m' = mkMarker (start m - L) (end_ m - L) true) /\
  (~ delEnd < start m -> c > end_ m -> m' = m) /\
  (~ delEnd < start m -> ~ c > end_ m ->
   c <= start m /\ delEnd >= end_ m ->
     m' = mkMarker (start m) (end_ m) false) /\
  (~ delEnd < start m -> ~ c > end_ m ->
   c <= start m /\ delEnd < end_ m ->
     m' = contract (delEnd - start m + 1) (shift (- (start m - c)) m) /\
     m' = mkMarker c (end_ m - L) true) /\
  (~ delEnd < start m -> ~ c > end_ m ->
   c > start m /\ delEnd >= end_ m ->
     m' = contract (end_ m - c + 1) m /\
     m' = mkMarker (start m) (c - 1) true) /\
  (~ delEnd < start m -> ~ c > end_ m ->
   ~ (c <= start m /\ delEnd >= end_ m) ->
   ~ (c <= start m /\ delEnd < end_ m) ->
   ~ (c > start m /\ delEnd >= end_ m) ->
     m' = contract L m /\ m' = mkMarker (start m) (end_ m - L) true).
Proof.
  intros Hen L delEnd m'. subst m' delEnd.
  pose proof (len_nonneg t) as HL. fold L in HL.
  destruct m as [s e en]. simpl in Hen. subst en.
  unfold transformStep, shift, contract, disable, Marker_length.
  cbn [fst start end_ enabled]. fold L.
  change (DIFF_DELETE =? DIFF_INSERT) with false.
  change (DIFF_DELETE =? DIFF_DELETE) with true. cbv iota.
  repeat split; intros; zcases; try lia; try reflexivity; f_equal; lia.
Qed.

Lemma deletion_table_witness :
  enabled (mkMarker 5 9 true) = true /\
  fst (transformStep (mkMarker 5 9 true, 3) (DIFF_DELETE, str "abcd"))
  = mkMarker 3 5 true.
Proof.
  split; [reflexivity|].
  pose proof (deletion_table (mkMarker 5 9 true) 3 (str "abcd") eq_refl) as H.
  cbv zeta in H.
  destruct H as (_ & _ & _ & H & _).
  destruct H as [_ H].
  - vm_compute. intros H; discriminate H.
  - vm_compute. intros H; discriminate H.
  - split; vm_compute; [intros H; discriminate H | reflexivity].
  - exact H.
Defined.

(** The cursor after a replay of a diff made of the three op codes the
    engine produces. *)
Lemma replay_cursor (diffs : list Diff) (m : Marker) (c : Z) :
  Forall (fun d : Diff => d.1 = DIFF_EQUAL \/ d.1 = DIFF_INSERT \/ d.1 = DIFF_DELETE)
    diffs ->
  snd (replayFrom c diffs m) = c + newLength diffs.
Proof.
  unfold replayFrom. revert m c.
  induction diffs as [|[op t] ds IH]; intros m c Hops.
  - simpl. lia.
  - apply Forall_cons in Hops as [Hop Hds].
    cbn [fold_left foldr newLength].
    destruct (transformStep (m, c) (op, t)) as [m1 c1] eqn:E.
    rewrite (IH m1 c1 Hds). fold (newLength ds).
    assert (c1 = c + (if (op =? DIFF_INSERT) || (op =? DIFF_EQUAL) then len t else 0))
      as ->; [|simpl; lia].
    simpl in Hop. unfold transformStep in E.
    destruct Hop as [->|[->| ->]]; simpl in E; inversion E; subst; simpl; lia.
Qed.

(** C2. In the replay the cursor advances by the span length on Kept and
    Inserted spans and stays on Deleted spans; an Inserted span of length [L]
    at cursor [c] shifts the marker right by [L] when [c <= start], expands
    its end by [L] when [start < c <= end], and leaves it alone when
    [c > end]. *)
Theorem cursor_and_insertion_table (m : Marker) (c : Z) (t : list N) :
  let L := len t in
  let m' := fst (transformStep (m, c) (DIFF_INSERT, t)) in
  snd (transformStep (m, c) (DIFF_EQUAL, t)) = c + L /\
  snd (transformStep (m, c) (DIFF_INSERT, t)) = c + L /\
  snd (transformStep (m, c) (DIFF_DELETE, t)) = c /\
  fst (transformStep (m, c) (DIFF_EQUAL, t)) = m /\
  (c <= start m ->
     m' = shift L m /\ m' = mkMarker (start m + L) (end_ m + L) (enabled m)) /\
  (start m < c <= end_ m ->
     m' = expand L m /\ m' = mkMarker (start m) (end_ m + L) (enabled m)) /\
  (start m < c -> c > end_ m -> m' = m) /\
  (start m <= end_ m -> c > end_ m -> m' = m) /\
  (forall diffs,
     Forall (fun d : Diff =>
               d.1 = DIFF_EQUAL \/ d.1 = DIFF_INSERT \/ d.1 = DIFF_DELETE) diffs ->
     snd (replayFrom c diffs m) = c + newLength diffs).
Proof.
  intros L m'. subst m'.
  destruct m as [s e en].
  unfold transformStep, shift, expand. cbn [fst snd start end_ enabled]. fold L.
  change (DIFF_EQUAL =? DIFF_INSERT) with false.
  change (DIFF_EQUAL =? DIFF_DELETE) with false.
  change (DIFF_INSERT =? DIFF_INSERT) with true.
  change (DIFF_DELETE =? DIFF_INSERT) with false.
  change (DIFF_DELETE =? DIFF_DELETE) with true. cbv iota.
  repeat split; try reflexivity; intros; zcases; try lia; try reflexivity.
  apply replay_cursor; assumption.
Qed.

Lemma cursor_and_insertion_table_witness :
  fst (transformStep (mkMarker 5 9 true, 7) (DIFF_INSERT, str "abc"))
  = mkMarker 5 12 true.
Proof.
  pose proof (cursor_and_insertion_table (mkMarker 5 9 true) 7 (str "abc")) as H.
  cbv zeta in H.
  destruct H as (_ & _ & _ & _ & _ & H & _).
  destruct H as [_ H]; [simpl; lia|].
  exact H.
Defined.

(** ** The insertion marker generator *)

Lemma insertionMarkers_length (diffs : list Diff) (c : Z) :
  length (insertionMarkers c diffs) = insertCount diffs.
Proof.
  unfold insertCount. revert c.
  induction diffs as [|[op t] ds IH]; intros c; simpl; [done|].
  destruct (op =? DIFF_INSERT) eqn:E1; simpl; [by rewrite IH|].
  destruct (op =? DIFF_EQUAL); apply IH.
Qed.

Lemma insertionMarkers_lookup (diffs : list Diff) (c : Z) (i : nat) (t : list N) :
  diffs !! i = Some (DIFF_INSERT, t) ->
  insertionMarkers c diffs !! insertCount (take i diffs)
  = Some (mkMarker (c + newLength (take i diffs))
            (c + newLength (take i diffs) + len t - 1) true).
Proof.
  revert c i.
  induction diffs as [|[op t'] ds IH]; intros c i Hi; [done|].
  destruct i as [|i]; simpl in Hi.
  - inversion Hi; subst. simpl. unfold newMarker. do 2 f_equal; lia.
  - unfold insertCount in *. simpl.
    destruct (op =? DIFF_INSERT) eqn:E1; simpl.
    + rewrite (IH _ _ Hi). do 2 f_equal; lia.
    + destruct (op =? DIFF_EQUAL) eqn:E2; rewrite (IH _ _ Hi);
        do 2 f_equal; lia.
Qed.

Lemma insertionMarkers_sorted (diffs : list Diff) (c : Z) :
  StronglySorted (fun a b => end_ a < start b) (insertionMarkers c diffs) /\
  Forall (fun a => c <= start a) (insertionMarkers c diffs).
Proof.
  revert c.
  induction diffs as [|[op t] ds IH]; intros c; simpl.
  - split; constructor.
  - pose proof (len_nonneg t) as Ht.
    destruct (op =? DIFF_INSERT).
    + destruct (IH (c + len t)) as [IH1 IH2]. split.
      * constructor; [done|].
        eapply Forall_impl; [exact IH2|]. simpl. intros; lia.
      * constructor; [simpl; lia|].
        eapply Forall_impl; [exact IH2|]. simpl. intros; lia.
    + destruct (op =? DIFF_EQUAL); [|apply IH].
      destruct (IH (c + len t)) as [IH1 IH2]. split; [done|].
      eapply Forall_impl; [exact IH2|]. simpl. intros; lia.
Qed.

Lemma addStep_cursor (diffs : list Diff) (s : Store) (c : Z) :
  snd (fold_left addStep diffs (s, c)) = c + newLength diffs.
Proof.
  revert s c.
  induction diffs as [|[op t] ds IH]; intros s c; simpl; [lia|].
  destruct (op =? DIFF_INSERT); simpl; [rewrite IH; lia|].
  destruct (op =? DIFF_EQUAL); simpl; rewrite IH; lia.
Qed.

Lemma pushMarker_lookup_old (m : Marker) (s : Store) (l : nat) (x : Marker) :
  heap s !! l = Some x -> heap (pushMarker m s) !! l = Some x.
Proof.
  intros Hl. unfold pushMarker. simpl.
  rewrite lookup_insert_ne; [done|].
  intros <-. pose proof (is_fresh (dom (heap s))) as Hf.
  apply Hf, elem_of_dom. eauto.
Qed.

Lemma pushMarker_lookup_new (m : Marker) (s : Store) :
  heap s !! fresh (dom (heap s)) = None /\
  heap (pushMarker m s) !! fresh (dom (heap s)) = Some m.
Proof.
  split.
  - apply not_elem_of_dom, is_fresh.
  - unfold pushMarker. simpl. apply lookup_insert_eq.
Qed.

(** The generator appends references to fresh objects, one per Inserted
    span, holding the values [insertionMarkers] lists. *)
Lemma addStep_fold (diffs : list Diff) (s : Store) (c : Z) :
  exists new : list nat,
    markers (fold_left addStep diffs (s, c)).1 = markers s ++ new /\
    (forall l x, heap s !! l = Some x ->
                 heap (fold_left addStep diffs (s, c)).1 !! l = Some x) /\
    Forall2 (fun l x => heap (fold_left addStep diffs (s, c)).1 !! l = Some x)
      new (insertionMarkers c diffs) /\
    NoDup new /\
    (forall l, l ∈ new -> heap s !! l = None).
Proof.
  revert s c.
  induction diffs as [|[op t] ds IH]; intros s c; simpl.
  - exists []. rewrite app_nil_r. repeat split; auto; try constructor.
    intros l Hl. by apply elem_of_nil in Hl.
  - destruct (op =? DIFF_INSERT).
    + set (mk := newMarker c (c + len t - 1)).
      destruct (IH (pushMarker mk s) (c + len t))
        as (new & Hm & Hold & Hnew & Hnd & Hfresh).
      destruct (pushMarker_lookup_new mk s) as [Hf1 Hf2].
      exists (fresh (dom (heap s)) :: new).
      split; [rewrite Hm; simpl; by rewrite <- app_assoc|].
      split; [intros l x Hl; by apply Hold, pushMarker_lookup_old|].
      split; [constructor; [by apply Hold | done]|].
      split.
      * constructor; [|done]. intros Hin. apply Hfresh in Hin. congruence.
      * intros l Hl. apply elem_of_cons in Hl as [->|Hl]; [done|].
        apply Hfresh in Hl. destruct (heap s !! l) eqn:E; [|done].
        apply (pushMarker_lookup_old mk) in E. congruence.
    + destruct (op =? DIFF_EQUAL); apply IH.
Qed.

(** C4. The generator walks the diff with a cursor that advances on Kept
    and Inserted spans only, and appends one fresh marker
    [{start: c, end: c + L - 1, enabled: true}] per Inserted span of length
    [L] met at cursor [c], in op order; the markers it appends are pairwise
    disjoint, each one ending before the next one starts. *)
Theorem insertion_markers_generated (s : Store) (diffs : list Diff) :
  let s' := addInsertionMarkers s diffs in
  (forall c, snd (fold_left addStep diffs (s, c)) = c + newLength diffs) /\
  exists new : list nat,
    markers s' = markers s ++ new /\
    NoDup new /\
    (forall l, l ∈ new -> heap s !! l = None) /\
    (forall l x, heap s !! l = Some x -> heap s' !! l = Some x) /\
    length new = insertCount diffs /\
    (forall i t, diffs !! i = Some (DIFF_INSERT, t) ->
       exists l, new !! insertCount (take i diffs) = Some l /\
         heap s' !! l
         = Some (mkMarker (newLength (take i diffs))
                   (newLength (take i diffs) + len t - 1) true)) /\
    (forall j k a b, (j < k)%nat -> new !! j = Some a -> new !! k = Some b ->
       exists ma mb, heap s' !! a = Some ma /\ heap s' !! b = Some mb /\
                     end_ ma < start mb).
Proof.
  intros s'. split; [intros c; apply addStep_cursor|].
  destruct (addStep_fold diffs s 0) as (new & Hm & Hold & Hnew & Hnd & Hfresh).
  fold (addInsertionMarkers s diffs) in Hm, Hold, Hnew. fold s' in Hm, Hold, Hnew.
  exists new. repeat split; try assumption.
  - rewrite (Forall2_length _ _ _ Hnew). apply insertionMarkers_length.
  - intros i t Hi.
    pose proof (insertionMarkers_lookup diffs 0 i t Hi) as Hx.
    destruct (Forall2_lookup_r _ _ _ _ _ Hnew Hx) as (l & Hl & Hv).
    exists l. split; [done|]. rewrite Hv. do 2 f_equal; lia.
  - intros j k a b Hjk Ha Hb.
    destruct (Forall2_lookup_l _ _ _ _ _ Hnew Ha) as (ma & Hma & Hva).
    destruct (Forall2_lookup_l _ _ _ _ _ Hnew Hb) as (mb & Hmb & Hvb).
    exists ma, mb. repeat split; try assumption.
    destruct (insertionMarkers_sorted diffs 0) as [Hs _].
    exact (StronglySorted_lookup_lt _ _ j k ma mb Hs Hjk Hma Hmb).
Qed.

(** ** Sorting *)

Section SortByFacts.
Context {A : Type} (cmp : A -> A -> Z).

Lemma insertBy_Permutation (x : A) (l : list A) : insertBy cmp x l ≡ₚ x :: l.
Proof.
  induction l as [|y l IH]; simpl; [done|].
  destruct (cmp y x >? 0); [done|].
  rewrite IH. apply Permutation_swap.
Qed.

Lemma sortBy_acc_Permutation (l acc : list A) :
  fold_left (fun acc x => insertBy cmp x acc) l acc ≡ₚ l ++ acc.
Proof.
  revert acc. induction l as [|x l IH]; intros acc; simpl; [done|].
  rewrite IH, insertBy_Permutation. by rewrite Permutation_middle.
Qed.

Lemma sortBy_Permutation (l : list A) : sortBy cmp l ≡ₚ l.
Proof. unfold sortBy. rewrite sortBy_acc_Permutation. by rewrite app_nil_r. Qed.

(** The order the comparator decides: whenever it answers, its answer
    agrees with a transitive relation [R]. *)
Context (R : A -> A -> Prop) `{!Transitive R}.
Hypothesis cmp_le : forall a b, cmp a b <= 0 -> R a b.
Hypothesis cmp_gt : forall a b, cmp a b > 0 -> R b a.

Lemma insertBy_sorted (x : A) (l : list A) :
  StronglySorted R l -> StronglySorted R (insertBy cmp x l).
Proof.
  induction 1 as [|y l Hs IH Hall]; simpl.
  - repeat constructor.
  - destruct (Z.gtb_spec (cmp y x) 0) as [Hgt|Hle].
    + constructor; [by constructor|].
      assert (R x y) as Hxy by (apply cmp_gt; lia).
      constructor; [done|].
      eapply Forall_impl; [exact Hall|]. intros z Hz. by transitivity y.
    + constructor; [done|].
      rewrite insertBy_Permutation. constructor; [|done].
      apply cmp_le; lia.
Qed.

Lemma sortBy_acc_sorted (l acc : list A) :
  StronglySorted R acc ->
  StronglySorted R (fold_left (fun acc x => insertBy cmp x acc) l acc).
Proof.
  revert acc. induction l as [|x l IH]; intros acc Hacc; simpl; [done|].
  apply IH. by apply insertBy_sorted.
Qed.

Lemma sortBy_sorted (l : list A) : StronglySorted R (sortBy cmp l).
Proof. apply sortBy_acc_sorted. constructor. Qed.
End SortByFacts.

(** ** The transformer as an element-wise map *)

Lemma transformAt_lookup (diffs : list Diff) (h : gmap nat Marker) (a l : nat) :
  transformAt diffs h a !! l
  = if decide (l = a) then transformMarker diffs <$> h !! l else h !! l.
Proof.
  unfold transformAt, transformMarker.
  destruct (decide (l = a)) as [->|Hne].
  - destruct (h !! a) as [m|] eqn:E; simpl; [|by rewrite E].
    destruct (enabled m); [by rewrite lookup_insert_eq|by rewrite E].
  - destruct (h !! a) as [m|] eqn:E; [|done].
    destruct (enabled m); [by rewrite lookup_insert_ne|done].
Qed.

Lemma transformMarkers_fold_lookup (diffs : list Diff) (order : list nat)
    (h : gmap nat Marker) (l : nat) :
  NoDup order ->
  fold_left (transformAt diffs) order h !! l
  = if decide (l ∈ order) then transformMarker diffs <$> h !! l else h !! l.
Proof.
  intros Hnd. revert h.
  induction Hnd as [|a order Ha Hnd IH]; intros h; cbn [fold_left].
  - destruct (decide (l ∈ [])) as [Hin|_]; [|done].
    by apply elem_of_nil in Hin.
  - rewrite IH, transformAt_lookup.
    destruct (decide (l = a)) as [->|Hne].
    + destruct (decide (a ∈ order)) as [|_]; [done|].
      destruct (decide (a ∈ a :: order)) as [_|Hn]; [done|].
      exfalso. apply Hn, list_elem_of_here.
    + destruct (decide (l ∈ order)) as [Hin|Hnin];
        destruct (decide (l ∈ a :: order)) as [Hin'|Hnin']; try done.
      * exfalso. apply Hnin'. by apply list_elem_of_further.
      * apply elem_of_cons in Hin' as [?|?]; done.
Qed.

(** C5. The in-place transformer is the element-wise application of the
    pure function [transformMarker diffs]: on a marker array without
    repeated references, each object ends with a value that depends on its
    own prior value and the diff only, whatever the processing order; the
    sort by ascending start decides the order of the array alone. *)
Theorem transformMarkers_elementwise (s : Store) (diffs : list Diff) :
  NoDup (markers s) ->
  let s' := transformMarkers s diffs in
  markers s' ≡ₚ markers s /\
  StronglySorted
    (fun a b => start (deref (heap s) a) <= start (deref (heap s) b))
    (markers s') /\
  (forall l, heap s' !! l
             = if decide (l ∈ markers s)
               then transformMarker diffs <$> heap s !! l
               else heap s !! l) /\
  (forall order, order ≡ₚ markers s ->
     fold_left (transformAt diffs) order (heap s) = heap s').
Proof.
  intros Hnd s'.
  assert (markers s' ≡ₚ markers s) as Hperm by apply sortBy_Permutation.
  assert (forall order l, order ≡ₚ markers s ->
            fold_left (transformAt diffs) order (heap s) !! l
            = if decide (l ∈ markers s)
              then transformMarker diffs <$> heap s !! l
              else heap s !! l) as Hany.
  { intros order l Ho.
    rewrite transformMarkers_fold_lookup by (by rewrite Ho).
    destruct (decide (l ∈ order)) as [Hin|Hnin].
    - rewrite decide_True; [done|]. by rewrite <- Ho.
    - rewrite decide_False; [done|]. by rewrite <- Ho. }
  split; [done|]. split.
  - apply sortBy_sorted.
    + intros a b c Hab Hbc. lia.
    + unfold byStart. intros a b Hc. lia.
    + unfold byStart. intros a b Hc. lia.
  - split.
    + intros l. apply (Hany (markers s') l Hperm).
    + intros order Ho. apply map_eq. intros l.
      rewrite (Hany order l Ho). symmetry. apply (Hany (markers s') l Hperm).
Qed.

Lemma transformMarkers_elementwise_witness :
  let s := mkStore (<[1%nat := mkMarker 8 9 true]>
                      (<[0%nat := mkMarker 0 4 true]> ∅)) [1%nat; 0%nat] in
  let diffs := [(DIFF_INSERT, str "ab"); (DIFF_EQUAL, str "hello world")] in
  NoDup (markers s) /\
  markers (transformMarkers s diffs) = [0%nat; 1%nat] /\
  heap (transformMarkers s diffs) !! 1%nat = Some (mkMarker 10 11 true).
Proof.
  intros s diffs.
  assert (NoDup (markers s)) as Hnd.
  { simpl. apply NoDup_cons. split.
    - intros H. apply list_elem_of_singleton in H. discriminate H.
    - apply NoDup_singleton. }
  split; [exact Hnd|]. split; [reflexivity|].
  destruct (transformMarkers_elementwise s diffs Hnd) as (_ & _ & H & _).
  rewrite (H 1%nat). reflexivity.
Defined.

(** ** The marker invariant and the terminal state *)

Lemma transformStep_disabled (m : Marker) (c : Z) (d : Diff) :
  enabled m = false -> enabled (transformStep (m, c) d).1 = false.
Proof.
  destruct m as [s e en], d as [op t]. simpl. intros ->.
  unfold transformStep, shift, expand, contract, disable, Marker_length.
  cbn [fst start end_ enabled].
  destruct (op =? DIFF_INSERT); [|destruct (op =? DIFF_DELETE)]; simpl;
    zcases; reflexivity.
Qed.

Lemma transformStep_invariant (m : Marker) (c : Z) (d : Diff) :
  markerInvariant m -> markerInvariant (transformStep (m, c) d).1.
Proof.
  intros Hinv.
  destruct (enabled m) eqn:Hen.
  - specialize (Hinv Hen). clear Hen.
    destruct m as [s e en], d as [op t].
    pose proof (len_nonneg t) as Ht.
    unfold markerInvariant, Marker_length in *. simpl in Hinv.
    unfold transformStep, shift, expand, contract, disable, Marker_length.
    cbn [fst start end_ enabled].
    destruct (op =? DIFF_INSERT); [|destruct (op =? DIFF_DELETE)]; simpl;
      zcases; intros; try lia; try discriminate.
  - intros Hen'. rewrite transformStep_disabled in Hen' by done. discriminate.
Qed.

Lemma replayFrom_invariant (diffs : list Diff) (m : Marker) (c : Z) :
  markerInvariant m -> markerInvariant (replayFrom c diffs m).1.
Proof.
  unfold replayFrom. revert m c.
  induction diffs as [|d ds IH]; intros m c Hinv; [done|].
  cbn [fold_left].
  destruct (transformStep (m, c) d) as [m1 c1] eqn:E.
  apply IH. change m1 with (m1, c1).1. rewrite <- E.
  by apply transformStep_invariant.
Qed.

Lemma transformMarker_invariant (diffs : list Diff) (m : Marker) :
  markerInvariant m -> markerInvariant (transformMarker diffs m).
Proof.
  intros Hinv. unfold transformMarker, replay.
  destruct (enabled m); [|done]. by apply replayFrom_invariant.
Qed.

Lemma transformMarker_disabled (diffs : list Diff) (m : Marker) :
  enabled m = false -> transformMarker diffs m = m.
Proof. unfold transformMarker. by intros ->. Qed.

Lemma transformMarkers_fold_invariant (diffs : list Diff) (order : list nat)
    (h : gmap nat Marker) (l : nat) :
  (exists m, h !! l = Some m /\ markerInvariant m) ->
  exists m, fold_left (transformAt diffs) order h !! l = Some m /\
            markerInvariant m.
Proof.
  revert h. induction order as [|a order IH]; intros h Hl; [done|].
  cbn [fold_left]. apply IH.
  destruct Hl as (m & Hm & Hinv).
  rewrite transformAt_lookup, Hm.
  destruct (decide (l = a)); simpl; eauto using transformMarker_invariant.
Qed.

Lemma transformMarkers_fold_disabled (diffs : list Diff) (order : list nat)
    (h : gmap nat Marker) (l : nat) (m : Marker) :
  h !! l = Some m -> enabled m = false ->
  fold_left (transformAt diffs) order h !! l = Some m.
Proof.
  revert h. induction order as [|a order IH]; intros h Hl Hen; [done|].
  cbn [fold_left]. apply IH; [|done].
  rewrite transformAt_lookup, Hl.
  destruct (decide (l = a)); simpl; [|done].
  by rewrite transformMarker_disabled.
Qed.

Lemma transformMarkers_invariant (s : Store) (diffs : list Diff) :
  storeInvariant s -> storeInvariant (transformMarkers s diffs).
Proof.
  intros Hinv l Hl. unfold transformMarkers in *. simpl in *.
  apply transformMarkers_fold_invariant, Hinv.
  by rewrite sortBy_Permutation in Hl.
Qed.

Lemma insertionMarkers_invariant (diffs : list Diff) (c : Z) :
  nonEmptySpans diffs -> Forall markerInvariant (insertionMarkers c diffs).
Proof.
  intros Hne. revert c.
  induction Hne as [|[op t] ds Ht Hne IH]; intros c; simpl; [constructor|].
  destruct (op =? DIFF_INSERT).
  - constructor; [|apply IH].
    intros _. unfold Marker_length. simpl.
    pose proof (len_pos t Ht). lia.
  - destruct (op =? DIFF_EQUAL); apply IH.
Qed.

Lemma addInsertionMarkers_invariant (s : Store) (diffs : list Diff) :
  nonEmptySpans diffs -> storeInvariant s ->
  storeInvariant (addInsertionMarkers s diffs).
Proof.
  intros Hne Hinv l Hl. unfold addInsertionMarkers in *.
  destruct (addStep_fold diffs s 0) as (new & Hm & Hold & Hnew & _ & _).
  rewrite Hm in Hl. apply elem_of_app in Hl as [Hl|Hl].
  - destruct (Hinv l Hl) as (m & Hlm & Hm'). exists m. split; [|done].
    by apply Hold.
  - apply list_elem_of_lookup in Hl as [i Hi].
    destruct (Forall2_lookup_l _ _ _ _ _ Hnew Hi) as (m & Hmi & Hv).
    exists m. split; [done|].
    pose proof (insertionMarkers_invariant diffs 0 Hne) as Hall.
    rewrite Forall_forall in Hall. apply Hall.
    by eapply list_elem_of_lookup_2.
Qed.

Lemma applyDiffs_invariant (diffss : list (list Diff)) (s : Store) :
  Forall nonEmptySpans diffss -> storeInvariant s ->
  storeInvariant (fold_left applyDiffs diffss s).
Proof.
  intros Hne. revert s.
  induction Hne as [|diffs diffss Hd Hne IH]; intros s Hinv; [done|].
  cbn [fold_left]. apply IH. unfold applyDiffs.
  by apply addInsertionMarkers_invariant, transformMarkers_invariant.
Qed.

Lemma applyDiffs_disabled (diffss : list (list Diff)) (s : Store) (l : nat)
    (m : Marker) :
  heap s !! l = Some m -> enabled m = false ->
  heap (fold_left applyDiffs diffss s) !! l = Some m.
Proof.
  revert s. induction diffss as [|diffs diffss IH]; intros s Hl Hen; [done|].
  cbn [fold_left]. apply IH; [|done]. unfold applyDiffs, addInsertionMarkers.
  destruct (addStep_fold diffs (transformMarkers s diffs) 0)
    as (new & _ & Hold & _).
  apply Hold. unfold transformMarkers. simpl.
  by apply transformMarkers_fold_disabled.
Qed.

(** C6. [contract(n)] subtracts [n] from [end] and disables the marker
    exactly when the resulting length is at most 0; [shift] and [expand]
    never disable. Given diffs whose spans are not empty, every marker that
    is enabled after a pass of the transformer or of the generator, and so
    after any number of passes of the driver, has length
    [end - start + 1 >= 1]. A disabled marker is never enabled again and
    never changed by a later pass. *)
Theorem marker_lifecycle :
  (forall n m,
     start (contract n m) = start m /\
     end_ (contract n m) = end_ m - n /\
     Marker_length (contract n m) = Marker_length m - n /\
     enabled (contract n m)
     = enabled m && negb (Marker_length (contract n m) <=? 0)) /\
  (forall d m, enabled (shift d m) = enabled m /\
               enabled (expand d m) = enabled m) /\
  (forall s diffs, nonEmptySpans diffs -> storeInvariant s ->
     storeInvariant (transformMarkers s diffs) /\
     storeInvariant (addInsertionMarkers s diffs)) /\
  (forall diffss, Forall nonEmptySpans diffss ->
     storeInvariant (fold_left applyDiffs diffss emptyStore)) /\
  (forall s diffs l m, heap s !! l = Some m -> enabled m = false ->
     heap (transformMarkers s diffs) !! l = Some m /\
     heap (addInsertionMarkers s diffs) !! l = Some m) /\
  (forall s diffss l m, heap s !! l = Some m -> enabled m = false ->
     heap (fold_left applyDiffs diffss s) !! l = Some m).
Proof.
  split.
  { intros n [s e en]. unfold contract, Marker_length. simpl.
    destruct (e - n - s + 1 <=? 0) eqn:E; simpl; rewrite ?E;
      repeat split; try lia; by destruct en. }
  split; [by intros d [s e en]|].
  split.
  { intros s diffs Hne Hinv. split.
    - by apply transformMarkers_invariant.
    - by apply addInsertionMarkers_invariant. }
  split.
  { intros diffss Hne. apply applyDiffs_invariant; [done|].
    intros l Hl. by apply elem_of_nil in Hl. }
  split.
  { intros s diffs l m Hl Hen. split.
    - unfold transformMarkers. simpl. by apply transformMarkers_fold_disabled.
    - unfold addInsertionMarkers.
      destruct (addStep_fold diffs s 0) as (new & _ & Hold & _). by apply Hold. }
  intros s diffss l m. apply applyDiffs_disabled.
Qed.

Lemma marker_lifecycle_witness :
  let diffss := [[(DIFF_EQUAL, str "hello"); (DIFF_INSERT, str " big world")];
                 [(DIFF_EQUAL, str "hello"); (DIFF_DELETE, str " big")]] in
  Forall nonEmptySpans diffss /\
  storeInvariant (fold_left applyDiffs diffss emptyStore).
Proof.
  intros diffss.
  assert (Forall nonEmptySpans diffss) as Hne.
  { repeat constructor; intros H; discriminate H. }
  split; [exact Hne|].
  destruct marker_lifecycle as (_ & _ & _ & H & _).
  exact (H diffss Hne).
Defined.

(** ** The revision driver *)

Section DriverFacts.
Variable diff_main : Dmp -> list N -> list N -> list Diff.
Variable diff_cleanupSemantic : Dmp -> list Diff -> list Diff.
Variable diff_cleanupEfficiency : Dmp -> list Diff -> list Diff.

Local Abbreviation run :=
  (computeDeepDiff diff_main diff_cleanupSemantic diff_cleanupEfficiency).
Local Abbreviation step :=
  (revisionStep diff_main diff_cleanupSemantic diff_cleanupEfficiency).

Lemma revisionStep_calls (dmp : Dmp) (pairs : list (list N * list N))
    (s : Store) (calls : list EngineCall) :
  (fold_left (step dmp) pairs (s, calls)).2
  = calls ++ ((fun p => mkCall dmp p.1 p.2) <$> pairs).
Proof.
  revert s calls.
  induction pairs as [|[old new] pairs IH]; intros s calls; simpl.
  - by rewrite app_nil_r.
  - rewrite IH. by rewrite <- app_assoc.
Qed.

Lemma texts_usable (revisions : list (list N)) (options : gmap string JsVal) :
  List.filter
    (fun r => negb (truthy (destructure options "skipEmpty" (VBool true)))
              || (len r >? 0))
    (trim <$> revisions)
  = usableRevisions revisions options.
Proof.
  unfold usableRevisions.
  induction (trim <$> revisions) as [|r rs IH]; simpl; [done|].
  rewrite IH.
  replace (len r >? 0) with (negb (bool_decide (r = []))); [done|].
  destruct r; [done|]. unfold len. simpl.
  symmetry. apply Z.gtb_lt. lia.
Qed.

(** The calls of the engine: one per consecutive pair of usable
    revisions, each with the settings the driver assigned. *)
Lemma computeDeepDiff_calls (revisions : list (list N))
    (options : gmap string JsVal) :
  let texts := usableRevisions revisions options in
  let dmp := mkDmp (destructure options "timeout" (VNum (inject_Z 1))) 4 in
  (run revisions options).2
  = if Z.of_nat (length texts) <? 2 then []
    else (fun p => mkCall dmp p.1 p.2) <$> zip texts (tail texts).
Proof.
  intros texts dmp. unfold computeDeepDiff.
  rewrite texts_usable. fold texts. fold dmp.
  destruct (Z.of_nat (length texts) <? 2); [done|].
  pose proof (revisionStep_calls dmp (zip texts (tail texts)) emptyStore [])
    as Hc.
  destruct (fold_left (step dmp) (zip texts (tail texts)) (emptyStore, []))
    as [s calls].
  simpl in *. exact Hc.
Qed.
End DriverFacts.

(** C3, as the code has it. The time budget handed to the diff engine is the
    option named [timeout] when it is supplied and 1 when it is omitted; an
    option named [timeoutSeconds] is not read. [skipEmpty] defaults to
    true. The engine is called once per consecutive pair of usable
    revisions. *)
Theorem time_budget_option
    (diff_main : Dmp -> list N -> list N -> list Diff)
    (diff_cleanupSemantic diff_cleanupEfficiency : Dmp -> list Diff -> list Diff)
    (revisions : list (list N)) (options : gmap string JsVal) :
  let run := computeDeepDiff diff_main diff_cleanupSemantic diff_cleanupEfficiency in
  let calls := (run revisions options).2 in
  length calls = pred (length (usableRevisions revisions options)) /\
  (forall v, options !! "timeout" = Some v -> v <> VUndefined ->
     Forall (fun c => Diff_Timeout (call_dmp c) = v) calls) /\
  (options !! "timeout" = None ->
     Forall (fun c => Diff_Timeout (call_dmp c) = VNum (inject_Z 1)) calls) /\
  (forall v, run revisions (<["timeoutSeconds" := v]> options)
             = run revisions options) /\
  (options !! "skipEmpty" = None ->
     run revisions options
     = run revisions (<["skipEmpty" := VBool true]> options)).
Proof.
  intros run calls. subst calls run.
  rewrite computeDeepDiff_calls.
  set (texts := usableRevisions revisions options).
  split.
  { destruct (Z.ltb_spec (Z.of_nat (length texts)) 2) as [Hlt|Hge].
    - destruct texts as [|t1 [|t2 ts]]; simpl in *; try done; lia.
    - rewrite length_fmap, length_zip.
      destruct texts as [|t1 ts]; [simpl in Hge; lia|].
      cbn [tail length]. lia. }
  assert (forall v,
    destructure options "timeout" (VNum (inject_Z 1)) = v ->
    Forall (fun c => Diff_Timeout (call_dmp c) = v)
      (if Z.of_nat (length texts) <? 2 then []
       else (fun p => mkCall
                        (mkDmp (destructure options "timeout" (VNum (inject_Z 1))) 4)
                        p.1 p.2) <$> zip texts (tail texts))) as Hall.
  { intros v Hv. destruct (Z.of_nat (length texts) <? 2); [constructor|].
    apply Forall_fmap, Forall_forall. intros p _. exact Hv. }
  split.
  { intros v Hv Hne. apply Hall. unfold destructure. rewrite Hv.
    by destruct v. }
  split.
  { intros Hv. apply Hall. unfold destructure. by rewrite Hv. }
  split.
  { intros v. unfold computeDeepDiff, destructure.
    by rewrite !lookup_insert_ne by done. }
  intros Hs. unfold computeDeepDiff, destructure.
  rewrite lookup_insert_eq, Hs.
  by rewrite lookup_insert_ne by done.
Qed.

Lemma time_budget_option_witness :
  let options : gmap string JsVal := {["timeout" := VNum (Qmake 1 2)]} in
  let calls :=
    (computeDeepDiff replaceAllEngine noCleanup noCleanup
       [str "hello"; str "world"] options).2 in
  length calls = 1%nat /\
  Forall (fun c => Diff_Timeout (call_dmp c) = VNum (Qmake 1 2)) calls.
Proof.
  intros options calls.
  destruct (time_budget_option replaceAllEngine noCleanup noCleanup
              [str "hello"; str "world"] options) as (Hlen & Hv & _).
  split; [exact Hlen|].
  apply Hv; [reflexivity | intros H; discriminate H].
Defined.

(** C3 as stated fails: with [{timeoutSeconds: 5}] the engine is handed the
    default budget 1, not 5. *)
Lemma timeoutSeconds_not_read :
  let options : gmap string JsVal := {["timeoutSeconds" := VNum (inject_Z 5)]} in
  let calls :=
    (computeDeepDiff replaceAllEngine noCleanup noCleanup
       [str "a"; str "b"] options).2 in
  options !! "timeoutSeconds" = Some (VNum (inject_Z 5)) /\
  calls = [mkCall (mkDmp (VNum (inject_Z 1)) 4) (str "a") (str "b")] /\
  ~ Forall (fun c => Diff_Timeout (call_dmp c) = VNum (inject_Z 5)) calls.
Proof.
  intros options calls.
  assert (calls = [mkCall (mkDmp (VNum (inject_Z 1)) 4) (str "a") (str "b")])
    as Hc by reflexivity.
  split; [reflexivity|]. split; [exact Hc|].
  rewrite Hc. intros H. apply Forall_cons in H as [H _].
  simpl in H. discriminate H.
Qed.

(** C9. With fewer than two usable revisions the driver returns the first
    usable revision, or the empty string when there is none, with no
    markers, and the diff engine is not called; [run([])] gives
    [{text: "", markers: []}] and [run(["x"])] gives
    [{text: "x", markers: []}]. *)
Theorem degenerate_input
    (diff_main : Dmp -> list N -> list N -> list Diff)
    (diff_cleanupSemantic diff_cleanupEfficiency : Dmp -> list Diff -> list Diff)
    (revisions : list (list N)) (options : gmap string JsVal) :
  let run := computeDeepDiff diff_main diff_cleanupSemantic diff_cleanupEfficiency in
  ((length (usableRevisions revisions options) < 2)%nat ->
   run revisions options
   = (mkResult (default [] (head (usableRevisions revisions options))) [], [])) /\
  run [] options = (mkResult [] [], []) /\
  run [str "x"] options = (mkResult (str "x") [], []).
Proof.
  intros run.
  assert (forall revs,
    (length (usableRevisions revs options) < 2)%nat ->
    run revs options
    = (mkResult (default [] (head (usableRevisions revs options))) [], []))
    as Hdeg.
  { intros revs Hlt. subst run. unfold computeDeepDiff.
    rewrite texts_usable.
    destruct (Z.ltb_spec (Z.of_nat (length (usableRevisions revs options))) 2);
      [|lia].
    destruct (usableRevisions revs options) as [|t ts]; [done|].
    simpl. by destruct t. }
  split; [apply Hdeg|]. split.
  - apply (Hdeg []). simpl. lia.
  - rewrite (Hdeg [str "x"]).
    + unfold usableRevisions. simpl.
      by rewrite orb_true_r.
    + unfold usableRevisions. simpl. rewrite orb_true_r. simpl. lia.
Qed.

Lemma degenerate_input_witness :
  let options : gmap string JsVal := {["skipEmpty" := VBool false]} in
  let revisions := [str "  "] in
  (length (usableRevisions revisions options) < 2)%nat /\
  computeDeepDiff replaceAllEngine noCleanup noCleanup revisions options
  = (mkResult [] [], []).
Proof.
  intros options revisions.
  assert (length (usableRevisions revisions options) < 2)%nat as Hlt
    by (vm_compute; lia).
  split; [exact Hlt|].
  destruct (degenerate_input replaceAllEngine noCleanup noCleanup
              revisions options) as (H & _).
  exact (H Hlt).
Defined.

(** ** Strings: code points, slices, escaping *)

Lemma codePoints_cons_cases (u : N) (s : list N) :
  (exists v s', s = v :: s' /\ codePoints (u :: s) = [u; v] :: codePoints s') \/
  codePoints (u :: s) = [u] :: codePoints s.
Proof.
  destruct s as [|v s']; [by right|].
  cbn [codePoints].
  destruct (isHighSurrogate u && isLowSurrogate v); [left; eauto|by right].
Qed.

Lemma codePoints_facts (n : nat) (s : list N) :
  (length s <= n)%nat ->
  join (codePoints s) = s /\
  (length (codePoints s) <= length s)%nat /\
  (length (codePoints s) = length s -> codePoints s = (fun u => [u]) <$> s).
Proof.
  revert s. induction n as [|n IH]; intros s Hn.
  - destruct s; [done|simpl in Hn; lia].
  - destruct s as [|u s]; [done|].
    destruct (codePoints_cons_cases u s) as [(v & s' & -> & E)|E]; rewrite E.
    + destruct (IH s') as (Hj & Hl & _); [simpl in Hn; lia|].
      unfold join in *. cbn [concat length app].
      split; [by rewrite Hj|]. split; lia.
    + destruct (IH s) as (Hj & Hl & Hs); [simpl in Hn; lia|].
      unfold join in *. cbn [concat length app fmap list_fmap].
      split; [by rewrite Hj|]. split; [lia|].
      intros Hlen. rewrite Hs by lia. done.
Qed.

Lemma join_codePoints (s : list N) : join (codePoints s) = s.
Proof. by destruct (codePoints_facts (length s) s). Qed.

Lemma codePoints_length (s : list N) :
  (length (codePoints s) <= length s)%nat.
Proof. by destruct (codePoints_facts (length s) s) as (_ & ? & _). Qed.

Lemma codePoints_single_units (s : list N) :
  length (codePoints s) = length s -> codePoints s = (fun u => [u]) <$> s.
Proof. by destruct (codePoints_facts (length s) s) as (_ & _ & ?). Qed.

Lemma codePoints_nil (s : list N) : codePoints s = [] -> s = [].
Proof. intros H. by rewrite <- (join_codePoints s), H. Qed.

Lemma slice_nonneg {A} (l : list A) (a b : Z) :
  0 <= a -> 0 <= b ->
  slice l a b = take (Z.to_nat b - Z.to_nat a) (drop (Z.to_nat a) l).
Proof.
  intros Ha Hb. unfold slice, relIndex.
  destruct (Z.ltb_spec a 0); [lia|]. destruct (Z.ltb_spec b 0); [lia|].
  destruct (Z.le_gt_cases (Z.of_nat (length l)) a) as [Hge|Hlt].
  - rewrite (Z.min_r a) by done. rewrite !drop_ge by lia. by rewrite !take_nil.
  - rewrite (Z.min_l a) by lia.
    destruct (Z.le_gt_cases (Z.of_nat (length l)) b) as [Hgeb|Hltb].
    + rewrite (Z.min_r b) by done. rewrite !take_ge; [done|..];
        rewrite length_drop; lia.
    + rewrite (Z.min_l b) by lia. f_equal. lia.
Qed.

Lemma sliceFrom_nonneg {A} (l : list A) (a : Z) :
  0 <= a -> sliceFrom l a = drop (Z.to_nat a) l.
Proof.
  intros Ha. unfold sliceFrom. rewrite slice_nonneg by lia.
  apply take_ge. rewrite length_drop. lia.
Qed.

Lemma slice_drop {A} (l : list A) (a b : Z) :
  0 <= a <= b ->
  slice l a b ++ drop (Z.to_nat b) l = drop (Z.to_nat a) l.
Proof.
  intros Hab. rewrite slice_nonneg by lia.
  rewrite <- (take_drop (Z.to_nat b - Z.to_nat a) (drop (Z.to_nat a) l)) at 2.
  rewrite drop_drop. do 2 f_equal. lia.
Qed.

Lemma slice_app {A} (l : list A) (a b c : Z) :
  0 <= a <= b -> b <= c -> slice l a b ++ slice l b c = slice l a c.
Proof.
  intros Hab Hbc. rewrite !slice_nonneg by lia.
  replace (Z.to_nat c - Z.to_nat a)%nat
    with ((Z.to_nat b - Z.to_nat a) + (Z.to_nat c - Z.to_nat b))%nat by lia.
  rewrite <- take_take_drop, drop_drop. do 3 f_equal. lia.
Qed.

Lemma slice_fmap {A B} (f : A -> B) (l : list A) (a b : Z) :
  slice (f <$> l) a b = f <$> slice l a b.
Proof. unfold slice. by rewrite length_fmap, fmap_take, fmap_drop. Qed.

Lemma join_singletons (s : list N) : join ((fun u => [u]) <$> s) = s.
Proof.
  unfold join. induction s as [|u s IH]; [done|].
  simpl. f_equal. exact IH.
Qed.

Lemma flat_map_fusion {A B C} (f : A -> list B) (g : B -> list C) (l : list A) :
  flat_map g (flat_map f l) = flat_map (fun x => flat_map g (f x)) l.
Proof.
  induction l as [|x l IH]; simpl; [done|].
  by rewrite flat_map_app, IH.
Qed.

Lemma escapeHtml_units (s : list N) : escapeHtml s = flat_map escapeUnit s.
Proof.
  unfold escapeHtml, replaceAll. rewrite !flat_map_fusion.
  apply flat_map_ext. intros u. unfold escapeUnit.
  destruct (N.eqb_spec u 38) as [->|H38]; [reflexivity|].
  cbn [flat_map app].
  destruct (N.eqb_spec u 60) as [->|H60]; [reflexivity|].
  cbn [flat_map app].
  destruct (N.eqb_spec u 62) as [->|H62]; [reflexivity|].
  cbn [flat_map app].
  destruct (N.eqb_spec u 34) as [->|H34]; reflexivity.
Qed.

Lemma escapeHtml_app (a b : list N) :
  escapeHtml (a ++ b) = escapeHtml a ++ escapeHtml b.
Proof. rewrite !escapeHtml_units. apply flat_map_app. Qed.

Lemma escapeHtml_concat (l : list (list N)) :
  escapeHtml (concat l) = concat (escapeHtml <$> l).
Proof.
  induction l as [|a l IH]; simpl; [done|].
  by rewrite escapeHtml_app, IH.
Qed.

Lemma escapeUnit_no_bracket (u : N) :
  Forall (fun v => v <> 60%N /\ v <> 62%N) (escapeUnit u).
Proof.
  unfold escapeUnit.
  destruct (N.eqb_spec u 38); [by repeat constructor|].
  destruct (N.eqb_spec u 60); [by repeat constructor|].
  destruct (N.eqb_spec u 62); [by repeat constructor|].
  destruct (N.eqb_spec u 34); by repeat constructor.
Qed.

Lemma escapeHtml_no_bracket (s : list N) :
  Forall (fun v => v <> 60%N /\ v <> 62%N) (escapeHtml s).
Proof.
  rewrite escapeHtml_units.
  induction s as [|u s IH]; simpl; [constructor|].
  apply Forall_app. split; [apply escapeUnit_no_bracket|done].
Qed.


Lemma unescape_escape (s : list N) : unescapeHtml (escapeHtml s) = s.
Proof.
  unfold unescapeHtml. rewrite escapeHtml_units.
  induction s as [|u s IH]; [done|].
  cbn [flat_map]. unfold escapeUnit at 1.
  destruct (N.eqb_spec u 38) as [->|H38]; [simpl; by rewrite IH|].
  destruct (N.eqb_spec u 60) as [->|H60]; [simpl; by rewrite IH|].
  destruct (N.eqb_spec u 62) as [->|H62]; [simpl; by rewrite IH|].
  destruct (N.eqb_spec u 34) as [->|H34]; [simpl; by rewrite IH|].
  cbn [app unescapeFrom]. rewrite (proj2 (N.eqb_neq u 38) H38).
  by rewrite IH.
Qed.

Lemma stripTags_text (x r : list N) :
  Forall (fun v => v <> 60%N /\ v <> 62%N) x ->
  stripTags (x ++ r) = x ++ stripTags r.
Proof.
  unfold stripTags. induction 1 as [|u x [Hu _] Hx IH]; [done|].
  cbn [app stripTagsFrom]. rewrite (proj2 (N.eqb_neq u 60) Hu).
  by rewrite IH.
Qed.

Lemma stripTagsFrom_body (buf body r : list N) :
  Forall (fun v => v <> 62%N) body -> buf ++ body <> [] ->
  stripTagsFrom (Some buf) (body ++ 62%N :: r) = stripTags r.
Proof.
  intros Hb. revert buf. induction Hb as [|u body Hu Hb IH]; intros buf Hne.
  - cbn [app stripTagsFrom]. rewrite N.eqb_refl.
    destruct buf; [by rewrite app_nil_r in Hne|done].
  - cbn [app stripTagsFrom]. rewrite (proj2 (N.eqb_neq u 62) Hu).
    apply IH. done.
Qed.

Lemma stripTags_tag (body r : list N) :
  Forall (fun v => v <> 62%N) body -> body <> [] ->
  stripTags (60%N :: body ++ 62%N :: r) = stripTags r.
Proof.
  intros Hb Hne. unfold stripTags at 1. cbn [stripTagsFrom].
  rewrite N.eqb_refl. by apply stripTagsFrom_body.
Qed.

(** ** The renderer, piece by piece *)

Lemma tagsOf_sweep (chars : list (list N)) (events : list Event) (pos : Z) :
  tagsOf (sweep chars pos events) = events.
Proof.
  unfold tagsOf. revert pos.
  induction events as [|e events IH]; intros pos; cbn [sweep].
  - by destruct (pos <? Z.of_nat (length chars)).
  - destruct (index e >? pos); cbn [omap list_omap]; by rewrite IH.
Qed.

Lemma tagsOf_app (p q : list Piece) : tagsOf (p ++ q) = tagsOf p ++ tagsOf q.
Proof. unfold tagsOf. apply omap_app. Qed.

Lemma rawText_app (p q : list Piece) : rawText (p ++ q) = rawText p ++ rawText q.
Proof. unfold rawText. by rewrite omap_app, concat_app. Qed.

Lemma rawText_sweep (chars : list (list N)) (events : list Event) (pos : Z) :
  0 <= pos -> rawText (sweep chars pos events) = drop (Z.to_nat pos) chars.
Proof.
  revert pos. induction events as [|e events IH]; intros pos Hpos; cbn [sweep].
  - destruct (Z.ltb_spec pos (Z.of_nat (length chars))).
    + unfold rawText. simpl. rewrite app_nil_r. by apply sliceFrom_nonneg.
    + rewrite drop_ge by lia. done.
  - destruct (Z.gtb_spec (index e) pos) as [Hgt|Hle].
    + change (rawText (PText (slice chars pos (index e)) :: PTag e
                         :: sweep chars (index e) events))
        with (slice chars pos (index e) ++ rawText (sweep chars (index e) events)).
      rewrite IH by lia. apply slice_drop. lia.
    + change (rawText (PTag e :: sweep chars pos events))
        with (rawText (sweep chars pos events)).
      by apply IH.
Qed.

Lemma renderStep_fold (chars : list (list N)) (options : RenderOptions)
    (events : list Event) (result : list N) (pos : Z) :
  (let '(r, p) :=
     fold_left (renderStep chars (openTagOf options) (closeTagOf options))
       events (result, pos) in
   if p <? Z.of_nat (length chars)
   then r ++ escapeHtml (join (sliceFrom chars p)) else r)
  = result ++ concat (pieceString options <$> sweep chars pos events).
Proof.
  revert result pos.
  induction events as [|e events IH]; intros result pos; cbn [fold_left sweep].
  - destruct (pos <? Z.of_nat (length chars)); simpl; by rewrite ?app_nil_r.
  - unfold renderStep at 2.
    destruct (index e >? pos).
    + rewrite IH. cbn [fmap list_fmap concat pieceString].
      by rewrite <- !app_assoc.
    + rewrite IH. cbn [fmap list_fmap concat pieceString].
      by rewrite <- !app_assoc.
Qed.


(** The rendered string is the concatenation of the pieces of the sweep. *)
Lemma renderWithMarkers_pieces (text : list N) (markers : list Marker)
    (options : RenderOptions) :
  renderWithMarkers text markers options
  = concat (pieceString options <$> renderPieces text markers).
Proof.
  unfold renderWithMarkers, renderPieces, sortedEvents.
  destruct (List.filter enabled markers) as [|m ms] eqn:E.
  - simpl. destruct (codePoints text) as [|c cs] eqn:Ec.
    + simpl. by rewrite (codePoints_nil _ Ec).
    + rewrite <- Ec.
      destruct (Z.ltb_spec 0 (Z.of_nat (length (codePoints text))));
        [|rewrite Ec in *; simpl in *; lia].
      simpl. rewrite app_nil_r, sliceFrom_nonneg by lia.
      change (Z.to_nat 0) with 0%nat. rewrite drop_0.
      by rewrite join_codePoints.
  - cbn [length Nat.eqb].
    pose proof (renderStep_fold (codePoints text) options
                  (sortBy eventCmp (flat_map markerEvents (m :: ms))) [] 0) as H.
    destruct (fold_left _ _ _) as [r p]. exact H.
Qed.

(** ** Sorted events and nesting *)

#[local] Instance eventLe_trans : Transitive eventLe.
Proof.
  intros a b c [Hab|[Hab Hab']] [Hbc|[Hbc Hbc']]; unfold eventLe;
    try (left; lia).
  right. split; [lia|].
  destruct Hab' as [?|Hb]; [by left|].
  destruct Hbc' as [Hb'|?]; [congruence|by right].
Qed.

Lemma eventCmp_le (a b : Event) : eventCmp a b <= 0 -> eventLe a b.
Proof.
  unfold eventCmp, eventLe. destruct (Z.eqb_spec (index a) (index b)); simpl.
  - destruct (type a) eqn:E; [lia|]. intros _. right. by split; [|left].
  - intros. left. lia.
Qed.

Lemma eventCmp_gt (a b : Event) : eventCmp a b > 0 -> eventLe b a.
Proof.
  unfold eventCmp, eventLe. destruct (Z.eqb_spec (index a) (index b)); simpl.
  - destruct (type a) eqn:E; [|lia]. intros _. right. by split; [|right].
  - intros. left. lia.
Qed.

Lemma sortedEvents_sorted (markers : list Marker) :
  StronglySorted eventLe (sortedEvents markers).
Proof.
  unfold sortedEvents.
  apply sortBy_sorted; [apply _ | apply eventCmp_le | apply eventCmp_gt].
Qed.

Lemma sortedEvents_Permutation (markers : list Marker) :
  sortedEvents markers ≡ₚ flat_map markerEvents (List.filter enabled markers).
Proof. apply sortBy_Permutation. Qed.

Lemma elem_of_flat_map {A B} (f : A -> list B) (l : list A) (y : B) :
  y ∈ flat_map f l <-> exists x, x ∈ l /\ y ∈ f x.
Proof.
  rewrite list_elem_of_In, in_flat_map.
  split; intros (x & Hx & Hy); exists x;
    [rewrite !list_elem_of_In | rewrite <- !list_elem_of_In]; done.
Qed.


Lemma elem_of_middle {A} (x : A) (l1 l2 : list A) : x ∈ l1 ++ x :: l2.
Proof. apply elem_of_app. right. apply list_elem_of_here. Qed.



(** ** Spacing of the tags *)








(** Crossing markers are outside the laminar families: the tags still
    balance, but the elements they form are not the markers. *)
Example crossing_markers_mismatch :
  let markers := [mkMarker 0 5 true; mkMarker 3 8 true] in
  matchTags [] (tagsOf (renderPieces (str "abcdefghij") markers))
  = Some [(3, 6); (0, 9)] /\
  interval <$> markers = [(0, 6); (3, 9)].
Proof. split; reflexivity. Qed.

(** ** Round trip *)

Lemma stripTags_openTag (options : RenderOptions) (r : list N) :
  tagSafe options -> stripTags (openTagOf options ++ r) = stripTags r.
Proof.
  intros (Hne & Ht & Hc). unfold openTagOf.
  set (t := default (str "ins") (tagName options)) in *.
  set (c := default (str "deep-diff") (className options)) in *.
  destruct (truthy (VStr c)).
  - change (str "<") with [60%N]. change (str ">") with [62%N].
    replace (([60%N] ++ t ++ str " class=" ++ [34%N] ++ c ++ [34%N] ++ [62%N]) ++ r)
      with (60%N :: (t ++ str " class=" ++ [34%N] ++ c ++ [34%N]) ++ 62%N :: r)
      by (simpl; rewrite <- !app_assoc; simpl; by rewrite <- !app_assoc).
    apply stripTags_tag.
    + repeat (apply Forall_app; split); try done; by repeat constructor.
    + destruct t; [done|discriminate].
  - change (str "<") with [60%N]. change (str ">") with [62%N].
    replace (([60%N] ++ t ++ [62%N]) ++ r) with (60%N :: t ++ 62%N :: r)
      by (simpl; by rewrite <- !app_assoc).
    by apply stripTags_tag.
Qed.

Lemma stripTags_closeTag (options : RenderOptions) (r : list N) :
  tagSafe options -> stripTags (closeTagOf options ++ r) = stripTags r.
Proof.
  intros (Hne & Ht & Hc). unfold closeTagOf.
  set (t := default (str "ins") (tagName options)) in *.
  change (str "</") with [60%N; 47%N]. change (str ">") with [62%N].
  replace (([60%N; 47%N] ++ t ++ [62%N]) ++ r)
    with (60%N :: (47%N :: t) ++ 62%N :: r)
    by (simpl; by rewrite <- !app_assoc).
  apply stripTags_tag; [|done].
  constructor; [done|exact Ht].
Qed.

Lemma stripTags_pieces (options : RenderOptions) (pieces : list Piece) :
  tagSafe options ->
  stripTags (concat (pieceString options <$> pieces))
  = escapeHtml (join (rawText pieces)).
Proof.
  intros Hsafe. induction pieces as [|p pieces IH]; [done|].
  cbn [fmap list_fmap concat]. destruct p as [cs|e].
  - cbn [pieceString].
    rewrite stripTags_text by apply escapeHtml_no_bracket.
    change (rawText (PText cs :: pieces)) with (cs ++ rawText pieces).
    unfold join in *. by rewrite concat_app, escapeHtml_app, IH.
  - change (rawText (PTag e :: pieces)) with (rawText pieces).
    cbn [pieceString]. destruct (type e).
    + by rewrite stripTags_openTag.
    + by rewrite stripTags_closeTag.
Qed.

Lemma render_roundtrip_options (text : list N) (markers : list Marker)
    (options : RenderOptions) :
  tagSafe options ->
  unescapeHtml (stripTags (renderWithMarkers text markers options)) = text.
Proof.
  intros Hsafe.
  rewrite renderWithMarkers_pieces, stripTags_pieces by done.
  unfold renderPieces. rewrite rawText_sweep by lia.
  change (Z.to_nat 0) with 0%nat. rewrite drop_0.
  by rewrite join_codePoints, unescape_escape.
Qed.

Lemma tagSafe_default : tagSafe defaultOptions.
Proof. unfold tagSafe. simpl. repeat split; by repeat constructor. Qed.

(** C8. With no markers the renderer returns the escaped text; and for
    every marker list, the laminar in-bounds ones among them, stripping the
    tags from the rendered string and decoding the entities gives back the
    text. *)
Theorem render_roundtrip (text : list N) (markers : list Marker) :
  (forall options, renderWithMarkers text [] options = escapeHtml text) /\
  unescapeHtml (stripTags (renderWithMarkers text markers defaultOptions))
  = text.
Proof.
  split; [done|].
  apply render_roundtrip_options, tagSafe_default.
Qed.

(** ** Positions are code-point positions *)

Lemma elem_of_tagsOf (pieces : list Piece) (e : Event) :
  e ∈ tagsOf pieces <-> PTag e ∈ pieces.
Proof.
  unfold tagsOf. rewrite list_elem_of_omap. split.
  - intros (p & Hp & He). destruct p; [discriminate He|]. by simplify_eq.
  - intros Hp. by exists (PTag e).
Qed.

(** In front of the tag of an event at [index e] the sweep has emitted the
    text up to [index e], and nothing more. *)
Lemma sweep_prefix (chars : list (list N)) (events : list Event) (pos : Z)
    (p1 p2 : list Piece) (e : Event) :
  0 <= pos -> StronglySorted eventLe events ->
  sweep chars pos events = p1 ++ PTag e :: p2 ->
  rawText p1 = slice chars pos (Z.max pos (index e)).
Proof.
  revert pos p1.
  induction events as [|e0 events IH]; intros pos p1 Hpos Hs Hdec;
    cbn [sweep] in Hdec.
  - destruct (pos <? Z.of_nat (length chars));
      destruct p1 as [|? [|? ?]]; discriminate.
  - apply StronglySorted_inv in Hs as [Hs Hall]. rewrite Forall_forall in Hall.
    assert (forall q1, sweep chars (Z.max pos (index e0)) events
                       = q1 ++ PTag e :: p2 ->
              index e0 <= index e /\
              rawText q1 = slice chars (Z.max pos (index e0))
                             (Z.max pos (index e))) as Hrest.
    { intros q1 Hq.
      assert (e ∈ events) as He.
      { rewrite <- (tagsOf_sweep chars events (Z.max pos (index e0))), Hq.
        apply elem_of_tagsOf, elem_of_middle. }
      specialize (Hall e He).
      assert (index e0 <= index e) by (unfold eventLe in Hall; lia).
      split; [done|].
      rewrite (IH (Z.max pos (index e0)) q1) by (done || lia). f_equal. lia. }
    destruct (Z.gtb_spec (index e0) pos) as [Hgt|Hle].
    + destruct p1 as [|x p1]; [discriminate|].
      injection Hdec as <- Hdec.
      destruct p1 as [|y p1].
      * injection Hdec as <- _. unfold rawText. simpl.
        rewrite app_nil_r. f_equal. lia.
      * injection Hdec as <- Hdec.
        rewrite <- (Z.max_r pos (index e0)) in Hdec by lia.
        destruct (Hrest p1 Hdec) as [Hle' Hraw].
        change (rawText (PText (slice chars pos (index e0)) :: PTag e0 :: p1))
          with (slice chars pos (index e0) ++ rawText p1).
        rewrite Hraw. rewrite (Z.max_r pos (index e0)) by lia.
        rewrite (Z.max_r pos (index e)) by lia.
        apply slice_app; lia.
    + destruct p1 as [|y p1].
      * injection Hdec as <- _. rewrite Z.max_l by lia.
        rewrite slice_nonneg by lia. rewrite Nat.sub_diag. done.
      * injection Hdec as <- Hdec.
        rewrite <- (Z.max_l pos (index e0)) in Hdec by lia.
        destruct (Hrest p1 Hdec) as [Hle' Hraw].
        change (rawText (PTag e0 :: p1)) with (rawText p1).
        rewrite Hraw. f_equal. lia.
Qed.

(** The tags of an enabled marker with [0 <= start <= end] wrap the code
    points [start .. end] of the text. *)
Lemma marker_wrapped (text : list N) (markers : list Marker) (m : Marker) :
  m ∈ markers -> enabled m = true -> 0 <= start m <= end_ m ->
  exists p1 p2 p3,
    renderPieces text markers
    = p1 ++ PTag (mkEvent (start m) open)
         :: p2 ++ PTag (mkEvent (end_ m + 1) close) :: p3 /\
    rawText p1 = slice (codePoints text) 0 (start m) /\
    rawText p2 = slice (codePoints text) (start m) (end_ m + 1).
Proof.
  intros Hm Hen Hb.
  set (o := mkEvent (start m) open). set (c := mkEvent (end_ m + 1) close).
  set (pieces := renderPieces text markers).
  pose proof (sortedEvents_sorted markers) as Hsorted.
  assert (tagsOf pieces = sortedEvents markers) as Htags by apply tagsOf_sweep.
  assert (forall e, e ∈ markerEvents m -> e ∈ tagsOf pieces) as Hin.
  { intros e He. rewrite Htags, sortedEvents_Permutation.
    apply elem_of_flat_map. exists m. split; [|done].
    apply list_elem_of_In, filter_In. split; [by apply list_elem_of_In|done]. }
  assert (PTag o ∈ pieces) as Ho.
  { apply elem_of_tagsOf, Hin. apply list_elem_of_here. }
  apply list_elem_of_split in Ho as (p1 & rest & Hp).
  assert (c ∈ tagsOf pieces) as Hc.
  { apply Hin. apply list_elem_of_further, list_elem_of_here. }
  rewrite <- Htags, Hp in Hsorted.
  rewrite Hp, tagsOf_app in Hc. rewrite tagsOf_app in Hsorted.
  change (tagsOf (PTag o :: rest)) with (o :: tagsOf rest) in Hc, Hsorted.
  apply elem_of_app in Hc as [Hc|Hc].
  { exfalso.
    assert (eventLe c o) as Hle.
    { eapply StronglySorted_app_1_elem_of; [exact Hsorted|exact Hc|].
      apply list_elem_of_here. }
    unfold eventLe, c, o in Hle. simpl in Hle. lia. }
  apply elem_of_cons in Hc as [Hc|Hc]; [discriminate Hc|].
  apply elem_of_tagsOf, list_elem_of_split in Hc as (p2 & p3 & ->).
  exists p1, p2, p3. split; [exact Hp|].
  assert (rawText p1 = slice (codePoints text) 0 (start m)) as H1.
  { rewrite (sweep_prefix (codePoints text) (sortedEvents markers) 0 p1
               (p2 ++ PTag c :: p3) o); [|lia|apply sortedEvents_sorted|exact Hp].
    f_equal. simpl. lia. }
  split; [exact H1|].
  assert (rawText (p1 ++ PTag o :: p2)
          = slice (codePoints text) 0 (end_ m + 1)) as H2.
  { rewrite (sweep_prefix (codePoints text) (sortedEvents markers) 0
               (p1 ++ PTag o :: p2) p3 c);
      [|lia|apply sortedEvents_sorted|].
    - f_equal. simpl. lia.
    - fold (renderPieces text markers). fold pieces. rewrite Hp.
      by rewrite <- app_assoc. }
  rewrite rawText_app in H2.
  change (rawText (PTag o :: p2)) with (rawText p2) in H2.
  rewrite H1 in H2.
  rewrite <- (slice_app (codePoints text) 0 (start m) (end_ m + 1)) in H2
    by lia.
  by apply app_inv_head in H2.
Qed.

Lemma slice_single_units (text : list N) (a b : Z) :
  length (codePoints text) = length text ->
  join (slice (codePoints text) a b) = slice text a b.
Proof.
  intros Hlen. rewrite (codePoints_single_units text Hlen).
  by rewrite slice_fmap, join_singletons.
Qed.




(** The two readings do differ on other inputs: after a surrogate pair the
    code-point slice is one code unit further on. *)
Example code_point_slice_may_differ :
  let text := [55357; 56832; 97; 98]%N in
  let m := mkMarker 1 1 true in
  inBounds (codePoints text) m /\
  join (slice (codePoints text) (start m) (end_ m + 1)) = [97%N] /\
  slice text (start m) (end_ m + 1) = [56832%N].
Proof. intros text m. split; [unfold inBounds; simpl; lia|]. by split. Qed.

(** ** Supporting facts on the model *)

(** The driver only ever pushes fresh objects, so its marker array never
    holds a reference twice: the element-wise reading of the transformer
    applies to every pass of a run. *)
Lemma applyDiffs_wellFormed (diffss : list (list Diff)) (s : Store) :
  storeWellFormed s -> storeWellFormed (fold_left applyDiffs diffss s).
Proof.
  revert s. induction diffss as [|diffs diffss IH]; intros s Hwf; [done|].
  cbn [fold_left]. apply IH. clear IH. destruct Hwf as [Hnd Hdom].
  unfold applyDiffs, addInsertionMarkers.
  set (s1 := transformMarkers s diffs).
  assert (markers s1 ≡ₚ markers s) as Hperm by apply sortBy_Permutation.
  assert (forall l, l ∈ markers s1 -> is_Some (heap s1 !! l)) as Hdom1.
  { intros l Hl. unfold s1, transformMarkers in *. cbn [heap markers] in *.
    rewrite transformMarkers_fold_lookup by (by rewrite Hperm).
    rewrite decide_True by done. rewrite Hperm in Hl.
    destruct (Hdom l Hl) as [m ->]. by eexists. }
  destruct (addStep_fold diffs s1 0) as (new & Hm & Hold & _ & Hndn & Hfresh).
  split.
  - rewrite Hm. apply NoDup_app. split; [by rewrite Hperm|]. split; [|done].
    intros l Hl Hl'. apply Hfresh in Hl'. destruct (Hdom1 l Hl) as [m Hm'].
    congruence.
  - intros l Hl. rewrite Hm in Hl. apply elem_of_app in Hl as [Hl|Hl].
    + destruct (Hdom1 l Hl) as [m Hm']. exists m. by apply Hold.
    + destruct (addStep_fold diffs s1 0) as (new' & Hm2 & _ & Hnew & _ & _).
      rewrite Hm in Hm2. apply app_inv_head in Hm2. subst new'.
      apply list_elem_of_lookup in Hl as [i Hi].
      destruct (Forall2_lookup_l _ _ _ _ _ Hnew Hi) as (m & _ & Hv).
      by exists m.
Qed.

Lemma eventLe_antisym (a b : Event) : eventLe a b -> eventLe b a -> a = b.
Proof.
  destruct a as [ia ta], b as [ib tb]. unfold eventLe. simpl.
  intros H1 H2. destruct H1 as [?|[? Hab]], H2 as [?|[? Hba]]; try lia.
  subst. f_equal.
  destruct ta, tb; try done; destruct Hab as [?|?], Hba as [?|?]; congruence.
Qed.

(** The comparator of the event sort never answers 0, but the events it
    cannot tell apart are equal: whichever way [sort] arranges them, the
    sorted event list is the same. *)
Lemma sortedEvents_unique (markers : list Marker) (events : list Event) :
  StronglySorted eventLe events ->
  events ≡ₚ flat_map markerEvents (List.filter enabled markers) ->
  events = sortedEvents markers.
Proof.
  intros Hs Hp.
  apply (StronglySorted_unique_strong eventLe); [|done| |].
  - intros a b _ _. apply eventLe_antisym.
  - apply sortedEvents_sorted.
  - by rewrite Hp, sortedEvents_Permutation.
Qed.

(** * Further properties of the code *)

(** ** Diffs that change nothing *)

Lemma replayFrom_kept (diffs : list Diff) (m : Marker) (c : Z) :
  Forall (fun d : Diff => d.1 = DIFF_EQUAL) diffs ->
  (replayFrom c diffs m).1 = m.
Proof.
  unfold replayFrom. intros Hk. revert c.
  induction Hk as [|[op t] ds Hop Hds IH]; intros c; [done|].
  simpl in Hop. subst op. cbn [fold_left]. apply IH.
Qed.

Lemma addStep_kept (diffs : list Diff) (s : Store) (c : Z) :
  Forall (fun d : Diff => d.1 = DIFF_EQUAL) diffs ->
  (fold_left addStep diffs (s, c)).1 = s.
Proof.
  intros Hk. revert c.
  induction Hk as [|[op t] ds Hop Hds IH]; intros c; [done|].
  simpl in Hop. subst op. cbn [fold_left]. apply IH.
Qed.

Lemma transformAt_fixed (diffs : list Diff) (order : list nat)
    (h : gmap nat Marker) :
  (forall m, transformMarker diffs m = m) ->
  fold_left (transformAt diffs) order h = h.
Proof.
  intros Hfix. induction order as [|l order IH]; [done|].
  cbn [fold_left].
  assert (transformAt diffs h l = h) as ->; [|done].
  apply map_eq. intros l'. rewrite transformAt_lookup.
  destruct (decide (l' = l)); [|done].
  destruct (h !! l') as [m|]; simpl; [|done]. by rewrite Hfix.
Qed.

(** X1. A diff without Inserted and Deleted spans (two equal revisions
    give one) changes no marker and adds none: the pass only sorts the
    array. *)
Theorem kept_diff_changes_nothing (s : Store) (diffs : list Diff) :
  Forall (fun d : Diff => d.1 = DIFF_EQUAL) diffs ->
  heap (applyDiffs s diffs) = heap s /\
  markers (applyDiffs s diffs) = sortBy (byStart (heap s)) (markers s).
Proof.
  intros Hk. unfold applyDiffs, addInsertionMarkers.
  rewrite addStep_kept by done. unfold transformMarkers. cbn [heap markers].
  split; [|done]. apply transformAt_fixed. intros m.
  unfold transformMarker, replay. destruct (enabled m); [|done].
  by apply replayFrom_kept.
Qed.

Lemma kept_diff_changes_nothing_witness :
  let s := mkStore (<[0%nat := mkMarker 2 4 true]> ∅) [0%nat] in
  let diffs := [(DIFF_EQUAL, str "hello"); (DIFF_EQUAL, str " world")] in
  Forall (fun d : Diff => d.1 = DIFF_EQUAL) diffs /\
  heap (applyDiffs s diffs) = heap s.
Proof.
  intros s diffs.
  assert (Forall (fun d : Diff => d.1 = DIFF_EQUAL) diffs) as Hk
    by (repeat constructor).
  split; [exact Hk|].
  exact (proj1 (kept_diff_changes_nothing s diffs Hk)).
Defined.

(** ** Markers stay within the text *)

Lemma oldLength_nonneg (diffs : list Diff) : 0 <= oldLength diffs.
Proof.
  induction diffs as [|[op t] ds IH]; simpl; [lia|].
  pose proof (len_nonneg t). destruct ((op =? DIFF_DELETE) || (op =? DIFF_EQUAL)); lia.
Qed.

Lemma newLength_nonneg (diffs : list Diff) : 0 <= newLength diffs.
Proof.
  induction diffs as [|[op t] ds IH]; simpl; [lia|].
  pose proof (len_nonneg t). destruct ((op =? DIFF_INSERT) || (op =? DIFF_EQUAL)); lia.
Qed.

Lemma len_app (a b : list N) : len (a ++ b) = len a + len b.
Proof. unfold len. rewrite length_app. lia. Qed.

Lemma len_oldText (diffs : list Diff) : len (oldText diffs) = oldLength diffs.
Proof.
  induction diffs as [|[op t] ds IH]; [done|].
  unfold oldText in *. cbn [flat_map oldLength foldr]. rewrite len_app, IH.
  fold (oldLength ds). simpl.
  by destruct ((op =? DIFF_DELETE) || (op =? DIFF_EQUAL)).
Qed.

Lemma len_newText (diffs : list Diff) : len (newText diffs) = newLength diffs.
Proof.
  induction diffs as [|[op t] ds IH]; [done|].
  unfold newText in *. cbn [flat_map newLength foldr]. rewrite len_app, IH.
  fold (newLength ds). simpl.
  by destruct ((op =? DIFF_INSERT) || (op =? DIFF_EQUAL)).
Qed.

(** One step of the replay: the cursor [c] splits the text under the
    marker into the part already in new coordinates and the rest of the old
    text, [n] code units of it after this span. *)
Lemma transformStep_within (m : Marker) (c n : Z) (op : Z) (t : list N) :
  op = DIFF_EQUAL \/ op = DIFF_INSERT \/ op = DIFF_DELETE ->
  0 <= c -> 0 <= n ->
  markerWithin
    (c + (if (op =? DIFF_DELETE) || (op =? DIFF_EQUAL) then len t else 0) + n) m ->
  0 <= (transformStep (m, c) (op, t)).2 /\
  markerWithin ((transformStep (m, c) (op, t)).2 + n)
    (transformStep (m, c) (op, t)).1.
Proof.
  intros Hop Hc Hn Hw. pose proof (len_nonneg t) as Ht.
  destruct (enabled m) eqn:Hen.
  - specialize (Hw Hen). destruct m as [s e en]. simpl in Hen, Hw. subst en.
    unfold markerWithin, transformStep, shift, expand, contract, disable,
      Marker_length.
    cbn [fst snd start end_ enabled].
    destruct Hop as [->|[->| ->]]; simpl in Hw |- *;
      zcases; (split; [lia|]); intros; try lia; try discriminate.
  - split.
    + unfold transformStep.
      destruct Hop as [->|[->| ->]]; simpl; lia.
    + intros Hen'. rewrite transformStep_disabled in Hen' by done.
      discriminate.
Qed.

Lemma replayFrom_within (diffs : list Diff) (m : Marker) (c : Z) :
  validOps diffs -> 0 <= c ->
  markerWithin (c + oldLength diffs) m ->
  markerWithin (replayFrom c diffs m).2 (replayFrom c diffs m).1.
Proof.
  unfold replayFrom. intros Hv. revert m c.
  induction Hv as [|[op t] ds Hop Hv IH]; intros m c Hc Hw.
  - simpl in *. by rewrite Z.add_0_r in Hw.
  - cbn [fold_left]. simpl in Hop.
    destruct (transformStep_within m c (oldLength ds) op t Hop Hc
                (oldLength_nonneg ds)) as [Hc' Hw'].
    { cbn [oldLength foldr] in Hw. fold (oldLength ds) in Hw. simpl in Hw.
      by rewrite Z.add_assoc in Hw. }
    destruct (transformStep (m, c) (op, t)) as [m1 c1]. by apply IH.
Qed.

Lemma transformMarker_within (diffs : list Diff) (m : Marker) :
  validOps diffs ->
  markerWithin (oldLength diffs) m ->
  markerWithin (newLength diffs) (transformMarker diffs m).
Proof.
  intros Hv Hw. unfold transformMarker, replay.
  destruct (enabled m) eqn:Hen.
  - pose proof (replayFrom_within diffs m 0 Hv (Z.le_refl 0) Hw) as H.
    rewrite replay_cursor in H by done. by rewrite Z.add_0_l in H.
  - intros Hen'. congruence.
Qed.

Lemma insertionMarkers_within (diffs : list Diff) (c : Z) :
  Forall (fun d : Diff => d.1 = DIFF_INSERT -> d.2 <> []) diffs ->
  0 <= c ->
  Forall (fun m => c <= start m /\ start m <= end_ m
                   /\ end_ m < c + newLength diffs)
    (insertionMarkers c diffs).
Proof.
  intros Hne. revert c.
  induction Hne as [|[op t] ds Ht Hne IH]; intros c Hc; simpl; [constructor|].
  pose proof (len_nonneg t) as Hlen. pose proof (newLength_nonneg ds) as Hn.
  fold (newLength ds). simpl in Ht.
  destruct (Z.eqb_spec op DIFF_INSERT) as [->|Hni]; simpl.
  - pose proof (len_pos t (Ht eq_refl)).
    constructor; [simpl; lia|].
    eapply Forall_impl; [apply (IH (c + len t)); lia|]. simpl. intros; lia.
  - destruct (Z.eqb_spec op DIFF_EQUAL) as [->|Hne'].
    + eapply Forall_impl; [apply (IH (c + len t)); lia|]. simpl. intros; lia.
    + eapply Forall_impl; [apply (IH c); lia|]. simpl. intros; lia.
Qed.

Lemma applyDiffs_within_step (s : Store) (diffs : list Diff) :
  storeWellFormed s -> validOps diffs ->
  Forall (fun d : Diff => d.1 = DIFF_INSERT -> d.2 <> []) diffs ->
  storeWithin (oldLength diffs) s ->
  storeWithin (newLength diffs) (applyDiffs s diffs).
Proof.
  intros [Hnd Hdom] Hv Hne Hw. unfold applyDiffs, addInsertionMarkers.
  set (s1 := transformMarkers s diffs).
  assert (markers s1 ≡ₚ markers s) as Hperm by apply sortBy_Permutation.
  assert (storeWithin (newLength diffs) s1) as Hw1.
  { intros l Hl. unfold s1, transformMarkers in *. cbn [heap markers] in *.
    rewrite transformMarkers_fold_lookup by (by rewrite Hperm).
    rewrite decide_True by done. rewrite Hperm in Hl.
    destruct (Hw l Hl) as (m & -> & Hm). exists (transformMarker diffs m).
    split; [done|]. by apply transformMarker_within. }
  destruct (addStep_fold diffs s1 0) as (new & Hm & Hold & Hnew & _ & _).
  intros l Hl. rewrite Hm in Hl. apply elem_of_app in Hl as [Hl|Hl].
  - destruct (Hw1 l Hl) as (m & Hlm & Hin). exists m. split; [|done].
    by apply Hold.
  - apply list_elem_of_lookup in Hl as [i Hi].
    destruct (Forall2_lookup_l _ _ _ _ _ Hnew Hi) as (m & Hmi & Hv').
    exists m. split; [done|].
    pose proof (insertionMarkers_within diffs 0 Hne (Z.le_refl 0)) as Hall.
    rewrite Forall_forall in Hall.
    specialize (Hall m (list_elem_of_lookup_2 _ _ _ Hmi)).
    intros _. lia.
Qed.

(** X2. One pass of the driver keeps the markers within the text: when
    the array holds no reference twice and every enabled marker lies within
    the old text of the diff, every enabled marker lies within its new text
    after the pass, the new markers included. *)
Theorem pass_keeps_markers_within (s : Store) (diffs : list Diff) :
  storeWellFormed s -> validOps diffs ->
  Forall (fun d : Diff => d.1 = DIFF_INSERT -> d.2 <> []) diffs ->
  storeWithin (len (oldText diffs)) s ->
  storeWithin (len (newText diffs)) (applyDiffs s diffs).
Proof.
  rewrite len_oldText, len_newText. apply applyDiffs_within_step.
Qed.

Lemma pass_keeps_markers_within_witness :
  let s := mkStore (<[0%nat := mkMarker 6 10 true]> ∅) [0%nat] in
  let diffs := [(DIFF_EQUAL, str "hello "); (DIFF_DELETE, str "wor");
                (DIFF_INSERT, str "fie"); (DIFF_EQUAL, str "ld")] in
  storeWellFormed s /\ validOps diffs /\
  Forall (fun d : Diff => d.1 = DIFF_INSERT -> d.2 <> []) diffs /\
  storeWithin (len (oldText diffs)) s /\
  storeWithin (len (newText diffs)) (applyDiffs s diffs).
Proof.
  intros s diffs.
  assert (storeWellFormed s) as Hwf.
  { split; [apply NoDup_singleton|].
    intros l Hl. apply list_elem_of_singleton in Hl as ->. by eexists. }
  assert (validOps diffs) as Hv.
  { repeat (constructor; [simpl; auto|]). constructor. }
  assert (Forall (fun d : Diff => d.1 = DIFF_INSERT -> d.2 <> []) diffs) as Hne.
  { repeat (constructor; [simpl; intros _ H; discriminate H|]). constructor. }
  assert (storeWithin (len (oldText diffs)) s) as Hw.
  { intros l Hl. apply list_elem_of_singleton in Hl as ->.
    exists (mkMarker 6 10 true). split; [reflexivity|].
    intros _. vm_compute. repeat split; intros H; discriminate H. }
  repeat (split; [assumption|]).
  exact (pass_keeps_markers_within s diffs Hwf Hv Hne Hw).
Defined.

Lemma replaceEngine_contract : engineContract replaceEngine noCleanup noCleanup.
Proof.
  intros dmp old new. unfold noCleanup, replaceEngine. cbn zeta.
  destruct old as [|a old], new as [|b new]; cbn [List.filter snd negb bool_decide];
    simpl; rewrite ?app_nil_r; repeat split;
    repeat (constructor; simpl; auto); try discriminate.
Qed.

Section DriverWithin.
Variable diff_main : Dmp -> list N -> list N -> list Diff.
Variable diff_cleanupSemantic : Dmp -> list Diff -> list Diff.
Variable diff_cleanupEfficiency : Dmp -> list Diff -> list Diff.
Hypothesis contract :
  engineContract diff_main diff_cleanupSemantic diff_cleanupEfficiency.

Local Abbreviation step :=
  (revisionStep diff_main diff_cleanupSemantic diff_cleanupEfficiency).

Lemma revisionStep_within (dmp : Dmp) (s : Store) (calls : list EngineCall)
    (old new : list N) :
  storeWellFormed s -> storeWithin (len old) s ->
  storeWellFormed (step dmp (s, calls) (old, new)).1 /\
  storeWithin (len new) (step dmp (s, calls) (old, new)).1.
Proof.
  intros Hwf Hw.
  destruct (contract dmp old new) as (Hv & Hold & Hnew & Hne).
  set (diffs := diff_cleanupEfficiency dmp
                  (diff_cleanupSemantic dmp (diff_main dmp old new))) in *.
  change (step dmp (s, calls) (old, new)).1 with (applyDiffs s diffs).
  split.
  - apply (applyDiffs_wellFormed [diffs] s Hwf).
  - rewrite <- Hnew, len_newText. apply applyDiffs_within_step; try done.
    by rewrite <- len_oldText, Hold.
Qed.

Lemma driver_fold_within (dmp : Dmp) (texts : list (list N)) (t0 : list N)
    (s : Store) (calls : list EngineCall) :
  storeWellFormed s -> storeWithin (len t0) s ->
  storeWithin (len (List.last (t0 :: texts) []))
    (fold_left (step dmp) (zip (t0 :: texts) texts) (s, calls)).1.
Proof.
  revert t0 s calls.
  induction texts as [|t1 texts IH]; intros t0 s calls Hwf Hw; [done|].
  change (zip (t0 :: t1 :: texts) (t1 :: texts))
    with ((t0, t1) :: zip (t1 :: texts) texts).
  cbn [fold_left].
  destruct (revisionStep_within dmp s calls t0 t1 Hwf Hw) as [Hwf' Hw'].
  destruct (step dmp (s, calls) (t0, t1)) as [s1 calls1].
  change (List.last (t0 :: t1 :: texts) []) with (List.last (t1 :: texts) []).
  by apply IH.
Qed.
End DriverWithin.

(** X3. With a diff engine that meets its contract (diffs made of the three
    op codes, which reconstruct the old and the new text and have no empty
    Inserted span), every marker [computeDeepDiff] returns is enabled and
    lies within the returned text: [0 <= start <= end < text.length]. *)
Theorem returned_markers_within
    (diff_main : Dmp -> list N -> list N -> list Diff)
    (diff_cleanupSemantic diff_cleanupEfficiency : Dmp -> list Diff -> list Diff)
    (revisions : list (list N)) (options : gmap string JsVal) :
  engineContract diff_main diff_cleanupSemantic diff_cleanupEfficiency ->
  let r :=
    (computeDeepDiff diff_main diff_cleanupSemantic diff_cleanupEfficiency
       revisions options).1 in
  Forall (fun m => enabled m = true /\
                   0 <= start m /\ start m <= end_ m /\ end_ m < len (text r))
    (result_markers r).
Proof.
  intros Hc r. subst r. unfold computeDeepDiff.
  set (dmp := mkDmp _ 4).
  destruct (List.filter _ (trim <$> revisions)) as [|t0 texts] eqn:E.
  { simpl. constructor. }
  destruct (Z.of_nat (length (t0 :: texts)) <? 2); [simpl; constructor|].
  cbn [tail].
  pose proof (driver_fold_within diff_main diff_cleanupSemantic
                diff_cleanupEfficiency Hc dmp texts t0 emptyStore []) as Hw.
  destruct (fold_left _ _ _) as [s calls]. cbn [fst text result_markers] in *.
  assert (storeWithin (len (List.last (t0 :: texts) [])) s) as Hs.
  { apply Hw.
    - split; [constructor|]. intros l Hl. by apply elem_of_nil in Hl.
    - intros l Hl. by apply elem_of_nil in Hl. }
  apply Forall_forall. intros m Hm.
  apply list_elem_of_In, filter_In in Hm as [Hm Hen].
  apply list_elem_of_In, list_elem_of_fmap in Hm as (l & -> & Hl).
  destruct (Hs l Hl) as (m & Hlm & Hin).
  unfold deref in *. rewrite Hlm in *. simpl in *.
  split; [done|]. by apply Hin.
Qed.

Lemma returned_markers_within_witness :
  let r := (computeDeepDiff replaceEngine noCleanup noCleanup
              [str "hello"; str " hello world "; str "world"] ∅).1 in
  engineContract replaceEngine noCleanup noCleanup /\
  Forall (fun m => enabled m = true /\
                   0 <= start m /\ start m <= end_ m /\ end_ m < len (text r))
    (result_markers r).
Proof.
  intros r. split; [exact replaceEngine_contract|].
  exact (returned_markers_within replaceEngine noCleanup noCleanup
           [str "hello"; str " hello world "; str "world"] ∅
           replaceEngine_contract).
Defined.

(** ** What a new marker covers *)

Lemma newText_app (a b : list Diff) : newText (a ++ b) = newText a ++ newText b.
Proof. unfold newText. apply flat_map_app. Qed.

Lemma slice_middle (a t b : list N) :
  slice (a ++ t ++ b) (len a) (len a + len t) = t.
Proof.
  pose proof (len_nonneg a). pose proof (len_nonneg t).
  rewrite slice_nonneg by lia. unfold len.
  rewrite Nat2Z.id.
  replace (Z.to_nat (Z.of_nat (length a) + Z.of_nat (length t)) - length a)%nat
    with (length t) by lia.
  by rewrite drop_app_length, take_app_length.
Qed.

(** X4. The marker the generator adds for an Inserted span covers exactly
    the inserted text in the new text: for the op [[INSERT, t]] at place [i]
    of the diff the array gains, at the place given by the number of
    Inserted spans before it, an enabled marker [m] with
    [newText.slice(m.start, m.end + 1) = t]. *)
Theorem new_marker_covers_insertion (s : Store) (diffs : list Diff) (i : nat)
    (t : list N) :
  diffs !! i = Some (DIFF_INSERT, t) ->
  exists l m,
    markers (addInsertionMarkers s diffs)
      !! (length (markers s) + insertCount (take i diffs))%nat = Some l /\
    heap (addInsertionMarkers s diffs) !! l = Some m /\
    enabled m = true /\
    slice (newText diffs) (start m) (end_ m + 1) = t.
Proof.
  intros Hi. unfold addInsertionMarkers.
  destruct (addStep_fold diffs s 0) as (new & Hm & _ & Hnew & _ & _).
  pose proof (insertionMarkers_lookup diffs 0 i t Hi) as Hx.
  destruct (Forall2_lookup_r _ _ _ _ _ Hnew Hx) as (l & Hl & Hv).
  eexists l, _. split; [|split; [exact Hv|]].
  - rewrite Hm. rewrite lookup_app_r by lia.
    replace (length (markers s) + insertCount (take i diffs) - length (markers s))%nat
      with (insertCount (take i diffs)) by lia.
    exact Hl.
  - split; [done|]. cbn [start end_].
    rewrite <- (take_drop_middle diffs i (DIFF_INSERT, t) Hi) at 1.
    rewrite newText_app.
    change (newText ((DIFF_INSERT, t) :: drop (S i) diffs))
      with (t ++ newText (drop (S i) diffs)).
    rewrite Z.add_0_l, <- len_newText.
    replace (len (newText (take i diffs)) + len t - 1 + 1)
      with (len (newText (take i diffs)) + len t) by lia.
    apply slice_middle.
Qed.

Lemma new_marker_covers_insertion_witness :
  let diffs := [(DIFF_EQUAL, str "hello "); (DIFF_DELETE, str "old");
                (DIFF_INSERT, str "new"); (DIFF_EQUAL, str " world")] in
  diffs !! 2%nat = Some (DIFF_INSERT, str "new") /\
  exists l m,
    markers (addInsertionMarkers emptyStore diffs) !! 0%nat = Some l /\
    heap (addInsertionMarkers emptyStore diffs) !! l = Some m /\
    enabled m = true /\
    slice (newText diffs) (start m) (end_ m + 1) = str "new".
Proof.
  intros diffs. split; [reflexivity|].
  exact (new_marker_covers_insertion emptyStore diffs 2 (str "new") eq_refl).
Defined.

(** ** Normalisation of the revisions *)

Lemma trimStart_head (s : list N) (u : N) (r : list N) :
  trimStart s = u :: r -> isWhiteSpace u = false.
Proof.
  induction s as [|v s IH]; [done|]. cbn [trimStart].
  destruct (isWhiteSpace v) eqn:E; [done|]. by intros [= <- _].
Qed.

Lemma trimStart_fixed (u : N) (r : list N) :
  isWhiteSpace u = false -> trimStart (u :: r) = u :: r.
Proof. intros H. cbn [trimStart]. by rewrite H. Qed.

Lemma trimStart_suffix (s : list N) : exists p, s = p ++ trimStart s.
Proof.
  induction s as [|v s [p IH]]; [by exists []|]. cbn [trimStart].
  destruct (isWhiteSpace v); [|by exists []].
  exists (v :: p). simpl. by rewrite <- IH.
Qed.

Lemma trimStart_idempotent (s : list N) : trimStart (trimStart s) = trimStart s.
Proof.
  destruct (trimStart s) as [|u r] eqn:E; [done|].
  apply trimStart_fixed. by eapply trimStart_head.
Qed.

Lemma trim_idempotent (s : list N) : trim (trim s) = trim s.
Proof.
  unfold trim. set (a := trimStart s).
  set (b := trimStart (reverse a)).
  assert (trimStart (reverse b) = reverse b) as Hb.
  { destruct (reverse b) as [|u r] eqn:E; [done|].
    apply trimStart_fixed.
    destruct (trimStart_suffix (reverse a)) as [p Hp]. fold b in Hp.
    apply (f_equal reverse) in Hp.
    rewrite reverse_involutive, reverse_app, E in Hp.
    eapply (trimStart_head s). fold a. rewrite Hp. reflexivity. }
  rewrite Hb, reverse_involutive. unfold b. by rewrite trimStart_idempotent.
Qed.

Lemma computeDeepDiff_texts
    (diff_main : Dmp -> list N -> list N -> list Diff)
    (diff_cleanupSemantic diff_cleanupEfficiency : Dmp -> list Diff -> list Diff)
    (revisions revisions' : list (list N)) (options : gmap string JsVal) :
  usableRevisions revisions options = usableRevisions revisions' options ->
  computeDeepDiff diff_main diff_cleanupSemantic diff_cleanupEfficiency
    revisions options
  = computeDeepDiff diff_main diff_cleanupSemantic diff_cleanupEfficiency
      revisions' options.
Proof.
  intros H. unfold computeDeepDiff. by rewrite !texts_usable, H.
Qed.

(** X5. White space around a revision does not count: trimming is
    idempotent, and the driver gives the same result, with the same calls
    of the engine, on the revisions and on the trimmed revisions. *)
Theorem surrounding_white_space_ignored
    (diff_main : Dmp -> list N -> list N -> list Diff)
    (diff_cleanupSemantic diff_cleanupEfficiency : Dmp -> list Diff -> list Diff)
    (revisions : list (list N)) (options : gmap string JsVal) :
  (forall s, trim (trim s) = trim s) /\
  computeDeepDiff diff_main diff_cleanupSemantic diff_cleanupEfficiency
    (trim <$> revisions) options
  = computeDeepDiff diff_main diff_cleanupSemantic diff_cleanupEfficiency
      revisions options.
Proof.
  split; [apply trim_idempotent|].
  apply computeDeepDiff_texts. unfold usableRevisions. f_equal.
  rewrite <- list_fmap_compose. apply list_fmap_ext. intros _ s _.
  apply trim_idempotent.
Qed.

(** X6. With [skipEmpty] enabled (the default) the revisions that are
    empty or made of white space only have no effect: the driver gives the
    same result, with the same calls of the engine, as on the list without
    them. *)
Theorem blank_revisions_skipped
    (diff_main : Dmp -> list N -> list N -> list Diff)
    (diff_cleanupSemantic diff_cleanupEfficiency : Dmp -> list Diff -> list Diff)
    (revisions : list (list N)) (options : gmap string JsVal) :
  truthy (destructure options "skipEmpty" (VBool true)) = true ->
  computeDeepDiff diff_main diff_cleanupSemantic diff_cleanupEfficiency
    (List.filter (fun r => negb (bool_decide (trim r = []))) revisions) options
  = computeDeepDiff diff_main diff_cleanupSemantic diff_cleanupEfficiency
      revisions options.
Proof.
  intros Hskip. apply computeDeepDiff_texts. unfold usableRevisions.
  rewrite Hskip. cbn [negb orb].
  induction revisions as [|r rs IH]; [done|].
  cbn [List.filter fmap list_fmap].
  destruct (bool_decide (trim r = [])) eqn:E; cbn [negb].
  - exact IH.
  - cbn [List.filter fmap list_fmap]. rewrite E. cbn [negb]. f_equal. exact IH.
Qed.

Lemma blank_revisions_skipped_witness :
  let revisions := [str "hello"; str ""; str "  "; str "hello world"] in
  truthy (destructure (∅ : gmap string JsVal) "skipEmpty" (VBool true)) = true /\
  computeDeepDiff replaceEngine noCleanup noCleanup
    [str "hello"; str "hello world"] ∅
  = computeDeepDiff replaceEngine noCleanup noCleanup revisions ∅.
Proof.
  intros revisions. split; [reflexivity|].
  exact (blank_revisions_skipped replaceEngine noCleanup noCleanup
           revisions ∅ eq_refl).
Defined.

(** X7. The driver calls the engine once for every consecutive pair of
    usable revisions, in order, always with the edit cost 4 and the one
    time budget; the returned text is the last usable revision. *)
Theorem engine_called_on_consecutive_pairs
    (diff_main : Dmp -> list N -> list N -> list Diff)
    (diff_cleanupSemantic diff_cleanupEfficiency : Dmp -> list Diff -> list Diff)
    (revisions : list (list N)) (options : gmap string JsVal) :
  let texts := usableRevisions revisions options in
  let dmp := mkDmp (destructure options "timeout" (VNum (inject_Z 1))) 4 in
  let r := computeDeepDiff diff_main diff_cleanupSemantic diff_cleanupEfficiency
             revisions options in
  r.2 = (fun p => mkCall dmp p.1 p.2) <$> zip texts (tail texts) /\
  text r.1 = List.last texts [].
Proof.
  intros texts dmp r. subst r. split.
  - rewrite computeDeepDiff_calls. fold texts. fold dmp.
    destruct (Z.ltb_spec (Z.of_nat (length texts)) 2); [|done].
    destruct texts as [|t0 [|t1 ts]]; simpl in *; try done; lia.
  - unfold computeDeepDiff. rewrite texts_usable. fold texts.
    destruct (Z.ltb_spec (Z.of_nat (length texts)) 2).
    + destruct texts as [|t0 [|t1 ts]]; simpl in *; try lia; [done|].
      by destruct t0.
    + by destruct (fold_left _ _ _).
Qed.

(** ** Counting tags *)

Lemma countIf_cons {A} (f : A -> bool) (x : A) (l : list A) :
  countIf f (x :: l) = (if f x then 1 else 0) + countIf f l.
Proof. unfold countIf. simpl. destruct (f x); simpl; lia. Qed.

Lemma countIf_app {A} (f : A -> bool) (l k : list A) :
  countIf f (l ++ k) = countIf f l + countIf f k.
Proof.
  induction l as [|x l IH]; [done|].
  simpl. rewrite !countIf_cons, IH. lia.
Qed.

Lemma countIf_Permutation {A} (f : A -> bool) (l k : list A) :
  l ≡ₚ k -> countIf f l = countIf f k.
Proof.
  induction 1 as [|x l k _ IH|x y l|l k j _ IH1 _ IH2];
    rewrite ?countIf_cons; lia.
Qed.

Lemma countIf_ext_in {A} (f g : A -> bool) (l : list A) :
  Forall (fun x => f x = g x) l -> countIf f l = countIf g l.
Proof.
  induction 1 as [|x l Hx _ IH]; [done|]. rewrite !countIf_cons, Hx, IH. done.
Qed.

Lemma countIf_none {A} (f : A -> bool) (l : list A) :
  Forall (fun x => f x = false) l -> countIf f l = 0.
Proof.
  induction 1 as [|x l Hx _ IH]; [done|]. rewrite countIf_cons, Hx, IH. done.
Qed.

(** Events counted through the markers they come from. *)
Lemma countIf_markerEvents (f : Event -> bool) (ms : list Marker) :
  countIf f (flat_map markerEvents ms)
  = countIf (fun m => f (mkEvent (start m) open)) ms
    + countIf (fun m => f (mkEvent (end_ m + 1) close)) ms.
Proof.
  induction ms as [|m ms IH]; [done|].
  cbn [flat_map markerEvents app]. rewrite !countIf_cons, IH. lia.
Qed.

Lemma countIf_true {A} (l : list A) :
  countIf (fun _ => true) l = Z.of_nat (length l).
Proof.
  induction l as [|x l IH]; [done|]. rewrite countIf_cons, IH. simpl length. lia.
Qed.

Lemma countIf_false {A} (l : list A) : countIf (fun _ => false) l = 0.
Proof. apply countIf_none, Forall_forall. done. Qed.

(** The sweep has one open and one close event per enabled marker,
    whatever the markers. *)
Lemma pieces_tags_balance (text : list N) (markers : list Marker)
    (options : RenderOptions) :
  let pieces := renderPieces text markers in
  renderWithMarkers text markers options
  = concat (pieceString options <$> pieces) /\
  countIf isOpen (tagsOf pieces)
  = Z.of_nat (length (List.filter enabled markers)) /\
  countIf isClose (tagsOf pieces)
  = Z.of_nat (length (List.filter enabled markers)).
Proof.
  intros pieces. split; [apply renderWithMarkers_pieces|].
  unfold pieces, renderPieces. rewrite tagsOf_sweep.
  rewrite !(countIf_Permutation _ _ _ (sortedEvents_Permutation markers)).
  rewrite !countIf_markerEvents. unfold isOpen, isClose. cbn [type].
  rewrite !countIf_true, !countIf_false. lia.
Qed.

(** ** Escaping *)

Lemma escapeUnit_no_quote (u : N) :
  Forall (fun v => v <> 34%N) (escapeUnit u).
Proof.
  unfold escapeUnit.
  destruct (N.eqb_spec u 38); [by repeat constructor|].
  destruct (N.eqb_spec u 60); [by repeat constructor|].
  destruct (N.eqb_spec u 62); [by repeat constructor|].
  destruct (N.eqb_spec u 34); by repeat constructor.
Qed.

Lemma escapeUnit_plain (u : N) :
  u <> 38%N -> u <> 60%N -> u <> 62%N -> u <> 34%N -> escapeUnit u = [u].
Proof.
  intros H1 H2 H3 H4. unfold escapeUnit.
  destruct (N.eqb_spec u 38); [done|]. destruct (N.eqb_spec u 60); [done|].
  destruct (N.eqb_spec u 62); [done|]. by destruct (N.eqb_spec u 34).
Qed.

(** X9. The four replacements of [escapeHtml], ['&'] first, amount to one
    pass that replaces each special character by its entity: nothing is
    escaped twice. The result holds no ['<'], ['>'] or double quote;
    escaping distributes over concatenation, loses nothing (two strings
    with the same escape are equal) and leaves a string without special
    characters as it is. *)
Theorem escapeHtml_properties :
  (forall s, escapeHtml s = flat_map escapeUnit s) /\
  (forall s, Forall (fun v => v <> 60%N /\ v <> 62%N /\ v <> 34%N)
               (escapeHtml s)) /\
  (forall a b, escapeHtml (a ++ b) = escapeHtml a ++ escapeHtml b) /\
  (forall a b, escapeHtml a = escapeHtml b -> a = b) /\
  (forall s, Forall (fun v => v <> 38%N /\ v <> 60%N /\ v <> 62%N /\ v <> 34%N) s ->
             escapeHtml s = s).
Proof.
  split; [apply escapeHtml_units|]. split.
  { intros s. rewrite escapeHtml_units.
    induction s as [|u s IH]; simpl; [constructor|].
    apply Forall_app. split; [|done].
    pose proof (escapeUnit_no_bracket u) as H1.
    pose proof (escapeUnit_no_quote u) as H2.
    rewrite Forall_forall in *. intros v Hv.
    destruct (H1 v Hv). specialize (H2 v Hv). done. }
  split; [apply escapeHtml_app|]. split.
  { intros a b H. apply (f_equal unescapeHtml) in H.
    by rewrite !unescape_escape in H. }
  intros s Hs. rewrite escapeHtml_units.
  induction Hs as [|u s (H1 & H2 & H3 & H4) _ IH]; [done|].
  simpl. rewrite escapeUnit_plain by done. simpl. by rewrite IH.
Qed.

(** ** What the rendering depends on *)

(** X10. The rendering depends on the enabled markers only, and not on
    their order: two marker lists with the same enabled markers, in any
    order, render alike. *)
Theorem render_depends_on_enabled_markers (text : list N)
    (markers markers' : list Marker) (options : RenderOptions) :
  List.filter enabled markers ≡ₚ List.filter enabled markers' ->
  renderWithMarkers text markers options
  = renderWithMarkers text markers' options.
Proof.
  intros Hp. rewrite !renderWithMarkers_pieces. unfold renderPieces.
  do 3 f_equal. symmetry. apply sortedEvents_unique.
  - apply sortedEvents_sorted.
  - rewrite sortedEvents_Permutation.
    apply Permutation_flat_map. by symmetry.
Qed.

Lemma render_depends_on_enabled_markers_witness :
  let markers := [mkMarker 0 4 true; mkMarker 2 9 false; mkMarker 6 10 true] in
  let markers' := [mkMarker 6 10 true; mkMarker 0 4 true] in
  List.filter enabled markers ≡ₚ List.filter enabled markers' /\
  renderWithMarkers (str "hello world") markers defaultOptions
  = renderWithMarkers (str "hello world") markers' defaultOptions.
Proof.
  intros markers markers'.
  assert (List.filter enabled markers ≡ₚ List.filter enabled markers') as Hp
    by apply perm_swap.
  split; [exact Hp|].
  exact (render_depends_on_enabled_markers (str "hello world") markers markers'
           defaultOptions Hp).
Defined.

(** ** Nesting depth *)

Lemma slice_empty {A} (l : list A) (a : Z) : 0 <= a -> slice l a a = [].
Proof. intros Ha. rewrite slice_nonneg by lia. by rewrite Nat.sub_diag. Qed.


Lemma cover_count (ms : list Marker) (i : Z) :
  Forall (fun m => start m <= end_ m + 1) ms ->
  countIf (fun m => start m <=? i) ms - countIf (fun m => end_ m + 1 <=? i) ms
  = countIf (fun m => (start m <=? i) && (i <=? end_ m)) ms.
Proof.
  induction 1 as [|m ms Hm _ IH]; [done|].
  rewrite !countIf_cons, <- IH.
  destruct (Z.leb_spec (start m) i), (Z.leb_spec (end_ m + 1) i),
    (Z.leb_spec i (end_ m)); simpl; lia.
Qed.



(** ** One marker *)

Lemma sliceFrom_beyond {A} (l : list A) (a : Z) :
  Z.of_nat (length l) <= a -> sliceFrom l a = [].
Proof.
  intros Ha. rewrite sliceFrom_nonneg by lia. apply drop_ge. lia.
Qed.

(** X12. One enabled marker with [0 <= start <= end] renders as the
    escaped text before it, the open tag, the escaped code points
    [start .. end], the close tag and the escaped rest, also when the
    marker reaches beyond the end of the text. *)
Theorem single_marker_rendering (text : list N) (m : Marker)
    (options : RenderOptions) :
  enabled m = true -> 0 <= start m <= end_ m ->
  renderWithMarkers text [m] options
  = escapeHtml (join (slice (codePoints text) 0 (start m)))
    ++ openTagOf options
    ++ escapeHtml (join (slice (codePoints text) (start m) (end_ m + 1)))
    ++ closeTagOf options
    ++ escapeHtml (join (sliceFrom (codePoints text) (end_ m + 1))).
Proof.
  intros Hen Hb. rewrite renderWithMarkers_pieces.
  unfold renderPieces, sortedEvents. cbn [List.filter]. rewrite Hen.
  cbn [flat_map markerEvents app]. unfold sortBy. cbn [fold_left insertBy].
  unfold eventCmp at 1. cbn [index type].
  destruct (Z.eqb_spec (start m) (end_ m + 1)) as [?|_]; [lia|]. cbn [negb].
  destruct (Z.gtb_spec (start m - (end_ m + 1)) 0) as [?|_]; [lia|].
  cbn [sweep index].
  destruct (Z.gtb_spec (end_ m + 1) (start m)) as [_|?]; [|lia].
  assert (concat (pieceString options <$>
            (if end_ m + 1 <? Z.of_nat (length (codePoints text))
             then [PText (sliceFrom (codePoints text) (end_ m + 1))] else []))
          = escapeHtml (join (sliceFrom (codePoints text) (end_ m + 1))))
    as Htail.
  { destruct (Z.ltb_spec (end_ m + 1) (Z.of_nat (length (codePoints text)))).
    - simpl. by rewrite app_nil_r.
    - by rewrite sliceFrom_beyond. }
  destruct (Z.gtb_spec (start m) 0) as [Hpos|Hzero].
  - cbn [sweep index].
    destruct (Z.gtb_spec (end_ m + 1) (start m)) as [_|?]; [|lia].
    cbn [fmap list_fmap concat pieceString type]. by rewrite Htail.
  - assert (start m = 0) as Hs by lia. rewrite Hs in *.
    cbn [sweep index].
    destruct (Z.gtb_spec (end_ m + 1) 0) as [_|?]; [|lia].
    cbn [fmap list_fmap concat pieceString type].
    rewrite Htail. by rewrite slice_empty.
Qed.

Lemma single_marker_rendering_witness :
  let m := mkMarker 6 10 true in
  enabled m = true /\ 0 <= start m <= end_ m /\
  renderWithMarkers (str "hello <b>") [m] defaultOptions
  = str "hello " ++ openTagOf defaultOptions ++ str "&lt;b&gt;"
    ++ closeTagOf defaultOptions.
Proof.
  intros m. split; [reflexivity|]. split; [simpl; lia|].
  rewrite (single_marker_rendering (str "hello <b>") m defaultOptions eq_refl);
    [reflexivity | simpl; lia].
Defined.

(** ** The convenience composition *)

Lemma computeDeepDiff_text
    (diff_main : Dmp -> list N -> list N -> list Diff)
    (diff_cleanupSemantic diff_cleanupEfficiency : Dmp -> list Diff -> list Diff)
    (revisions : list (list N)) (options : gmap string JsVal) :
  text (computeDeepDiff diff_main diff_cleanupSemantic diff_cleanupEfficiency
          revisions options).1
  = List.last (usableRevisions revisions options) [].
Proof.
  unfold computeDeepDiff. rewrite texts_usable.
  set (texts := usableRevisions revisions options).
  destruct (Z.ltb_spec (Z.of_nat (length texts)) 2).
  - destruct texts as [|t0 [|t1 ts]]; simpl in *; try lia; [done|].
    by destruct t0.
  - by destruct (fold_left _ _ _).
Qed.

Lemma computeDeepDiff_degenerate_markers
    (diff_main : Dmp -> list N -> list N -> list Diff)
    (diff_cleanupSemantic diff_cleanupEfficiency : Dmp -> list Diff -> list Diff)
    (revisions : list (list N)) (options : gmap string JsVal) :
  (length (usableRevisions revisions options) < 2)%nat ->
  result_markers
    (computeDeepDiff diff_main diff_cleanupSemantic diff_cleanupEfficiency
       revisions options).1 = [].
Proof.
  intros Hlt. unfold computeDeepDiff. rewrite texts_usable.
  destruct (Z.ltb_spec (Z.of_nat (length (usableRevisions revisions options))) 2);
    [done|lia].
Qed.

(** X13. [deepDiffHtml] renders the last usable revision: with tag and
    class names that are strings or missing, and hold no ['>'], stripping
    the tags of its result and decoding the entities gives the last usable
    revision, whatever the diff engine answers; with fewer than two usable
    revisions the result is that revision escaped, without a tag. *)
Theorem deepDiffHtml_renders_last_revision
    (diff_main : Dmp -> list N -> list N -> list Diff)
    (diff_cleanupSemantic diff_cleanupEfficiency : Dmp -> list Diff -> list Diff)
    (revisions : list (list N)) (options : gmap string JsVal)
    (renderOptions : RenderOptions) :
  renderOptionsOf options = Some renderOptions ->
  tagSafe renderOptions ->
  exists html,
    deepDiffHtml diff_main diff_cleanupSemantic diff_cleanupEfficiency
      revisions options = Some html /\
    unescapeHtml (stripTags html)
    = List.last (usableRevisions revisions options) [] /\
    ((length (usableRevisions revisions options) < 2)%nat ->
     html = escapeHtml (List.last (usableRevisions revisions options) [])).
Proof.
  intros Hro Hsafe. unfold deepDiffHtml. rewrite Hro.
  eexists. split; [reflexivity|]. split.
  - rewrite render_roundtrip_options by done. apply computeDeepDiff_text.
  - intros Hlt. rewrite computeDeepDiff_degenerate_markers by done.
    by rewrite computeDeepDiff_text.
Qed.

Lemma deepDiffHtml_renders_last_revision_witness :
  let options : gmap string JsVal := {["tagName" := VStr (str "mark")]} in
  let renderOptions := mkRenderOptions (Some (str "mark")) None in
  renderOptionsOf options = Some renderOptions /\ tagSafe renderOptions /\
  exists html,
    deepDiffHtml replaceEngine noCleanup noCleanup
      [str "a<b"; str "a<c"] options = Some html /\
    unescapeHtml (stripTags html) = str "a<c".
Proof.
  intros options renderOptions.
  assert (tagSafe renderOptions) as Hsafe.
  { unfold tagSafe. simpl. repeat split; by repeat constructor. }
  split; [reflexivity|]. split; [exact Hsafe|].
  destruct (deepDiffHtml_renders_last_revision replaceEngine noCleanup noCleanup
              [str "a<b"; str "a<c"] options renderOptions eq_refl Hsafe)
    as (html & H1 & H2 & _).
  exists html. split; [exact H1|exact H2].
Defined.

(** ** One edit *)

(** X14. A diff that inserts [b] after the [p] code units of [a] moves a
    marker as a whole when it starts at or after [p], widens it when [p]
    falls inside it after its first position, and leaves it alone when it
    ends before [p]; an insertion right after the last position of a marker
    does not widen it. *)
Theorem single_insertion_effect (a b c : list N) (m : Marker) :
  enabled m = true -> start m <= end_ m ->
  let p := len a in
  transformMarker [(DIFF_EQUAL, a); (DIFF_INSERT, b); (DIFF_EQUAL, c)] m
  = if p <=? start m then mkMarker (start m + len b) (end_ m + len b) true
    else if p <=? end_ m then mkMarker (start m) (end_ m + len b) true
    else m.
Proof.
  intros Hen Hb p. unfold transformMarker, replay, replayFrom. rewrite Hen.
  destruct m as [s e en]. simpl in Hen, Hb. subst en.
  cbn [fold_left]. unfold transformStep, shift, expand.
  cbn [fst snd start end_ enabled].
  change (DIFF_EQUAL =? DIFF_INSERT) with false.
  change (DIFF_EQUAL =? DIFF_DELETE) with false.
  change (DIFF_INSERT =? DIFF_INSERT) with true. cbv iota.
  rewrite Z.add_0_l. fold p. simpl start. simpl end_. simpl enabled.
  zcases; try lia; reflexivity.
Qed.

Lemma single_insertion_effect_witness :
  let m := mkMarker 6 10 true in
  enabled m = true /\ start m <= end_ m /\
  transformMarker
    [(DIFF_EQUAL, str "hello "); (DIFF_INSERT, str "big ");
     (DIFF_EQUAL, str "world")] m
  = mkMarker 10 14 true.
Proof.
  intros m. split; [reflexivity|]. split; [simpl; lia|].
  rewrite (single_insertion_effect (str "hello ") (str "big ") (str "world") m
             eq_refl); [reflexivity | simpl; lia].
Defined.

(** X15. A diff that deletes the [L] code units of [b] after the [p] code
    units of [a] leaves a marker that ends before [p], moves a marker that
    starts at or after [p + L] left by [L], disables a marker that lies
    within the deleted span, and cuts the deleted part out of a marker that
    overlaps it: the front, the tail, or the middle. *)
Theorem single_deletion_effect (a b c : list N) (m : Marker) :
  enabled m = true -> start m <= end_ m -> b <> [] ->
  let p := len a in
  let L := len b in
  let m' :=
    transformMarker [(DIFF_EQUAL, a); (DIFF_DELETE, b); (DIFF_EQUAL, c)] m in
  (end_ m < p -> m' = m) /\
  (p + L <= start m -> m' = mkMarker (start m - L) (end_ m - L) true) /\
  (p <= start m -> end_ m < p + L -> m' = mkMarker (start m) (end_ m) false) /\
  (p <= start m -> start m < p + L -> p + L <= end_ m ->
     m' = mkMarker p (end_ m - L) true) /\
  (start m < p -> p <= end_ m -> end_ m < p + L ->
     m' = mkMarker (start m) (p - 1) true) /\
  (start m < p -> p + L <= end_ m -> m' = mkMarker (start m) (end_ m - L) true).
Proof.
  intros Hen Hb Hne p L m'. subst m'.
  pose proof (len_pos b Hne) as HL. fold L in HL.
  unfold transformMarker, replay, replayFrom. rewrite Hen.
  destruct m as [s e en]. simpl in Hen, Hb. subst en.
  cbn [fold_left]. unfold transformStep, shift, contract, disable, Marker_length.
  cbn [fst snd start end_ enabled].
  change (DIFF_EQUAL =? DIFF_INSERT) with false.
  change (DIFF_EQUAL =? DIFF_DELETE) with false.
  change (DIFF_DELETE =? DIFF_INSERT) with false.
  change (DIFF_DELETE =? DIFF_DELETE) with true. cbv iota.
  rewrite Z.add_0_l. fold p. fold L. simpl start. simpl end_. simpl enabled.
  repeat split; intros; zcases; try lia; try reflexivity; f_equal; lia.
Qed.

Lemma single_deletion_effect_witness :
  let m := mkMarker 5 14 true in
  enabled m = true /\ start m <= end_ m /\ str " beautiful" <> [] /\
  transformMarker
    [(DIFF_EQUAL, str "hello"); (DIFF_DELETE, str " beautiful");
     (DIFF_EQUAL, str "")] m
  = mkMarker 5 14 false.
Proof.
  intros m.
  assert (str " beautiful" <> []) as Hne by (intros H; discriminate H).
  split; [reflexivity|]. split; [simpl; lia|]. split; [exact Hne|].
  destruct (single_deletion_effect (str "hello") (str " beautiful") (str "") m
              eq_refl) as (_ & _ & H & _); [simpl; lia|exact Hne|].
  apply H; vm_compute; [intros E; discriminate E | reflexivity].
Defined.

(** * The rendered string, as a reader sees it *)

(** ** Tokens of the rendered string *)

Lemma htmlTokens_text (x r : list N) :
  Forall (fun v => v <> 60%N /\ v <> 62%N) x ->
  htmlTokens (x ++ r) = (TChar <$> x) ++ htmlTokens r.
Proof.
  unfold htmlTokens. induction 1 as [|u x [Hu _] Hx IH]; [done|].
  cbn [app htmlTokensFrom fmap list_fmap].
  rewrite (proj2 (N.eqb_neq u 60) Hu). by rewrite IH.
Qed.

Lemma htmlTokensFrom_body (buf body r : list N) :
  Forall (fun v => v <> 62%N) body -> buf ++ body <> [] ->
  htmlTokensFrom (Some buf) (body ++ 62%N :: r)
  = tagToken (reverse body ++ buf) :: htmlTokens r.
Proof.
  intros Hb. revert buf. induction Hb as [|u body Hu Hb IH]; intros buf Hne.
  - cbn [app htmlTokensFrom]. rewrite N.eqb_refl.
    destruct buf; [by rewrite app_nil_r in Hne|done].
  - cbn [app htmlTokensFrom]. rewrite (proj2 (N.eqb_neq u 62) Hu).
    rewrite IH by done. by rewrite reverse_cons, <- app_assoc.
Qed.

Lemma htmlTokens_tag (body r : list N) :
  Forall (fun v => v <> 62%N) body -> body <> [] ->
  htmlTokens (60%N :: body ++ 62%N :: r)
  = (match body with
     | u :: _ => if (u =? 47)%N then TClose else TOpen
     | [] => TOpen
     end) :: htmlTokens r.
Proof.
  intros Hb Hne. unfold htmlTokens at 1. cbn [htmlTokensFrom].
  rewrite N.eqb_refl, htmlTokensFrom_body by done.
  unfold tagToken. by rewrite app_nil_r, reverse_involutive.
Qed.

Lemma htmlTokens_openTag (options : RenderOptions) (r : list N) :
  tagProper options ->
  htmlTokens (openTagOf options ++ r) = TOpen :: htmlTokens r.
Proof.
  intros [(Hne & Ht & Hc) Hhead]. unfold openTagOf.
  set (t := default (str "ins") (tagName options)) in *.
  set (c := default (str "deep-diff") (className options)) in *.
  destruct t as [|u t]; [done|].
  assert ((u =? 47)%N = false) as Hu.
  { apply N.eqb_neq. intros ->. by apply Hhead. }
  change (str "<") with [60%N]. change (str ">") with [62%N].
  destruct (truthy (VStr c)).
  - replace (([60%N] ++ (u :: t) ++ str " class=" ++ [34%N] ++ c ++ [34%N] ++ [62%N]) ++ r)
      with (60%N :: ((u :: t) ++ str " class=" ++ [34%N] ++ c ++ [34%N]) ++ 62%N :: r)
      by (simpl; rewrite <- !app_assoc; simpl; by rewrite <- !app_assoc).
    rewrite htmlTokens_tag.
    + cbn [app]. by rewrite Hu.
    + repeat (apply Forall_app; split); try done; by repeat constructor.
    + done.
  - replace (([60%N] ++ (u :: t) ++ [62%N]) ++ r)
      with (60%N :: (u :: t) ++ 62%N :: r)
      by (simpl; by rewrite <- !app_assoc).
    rewrite htmlTokens_tag by done. by rewrite Hu.
Qed.

Lemma htmlTokens_closeTag (options : RenderOptions) (r : list N) :
  tagProper options ->
  htmlTokens (closeTagOf options ++ r) = TClose :: htmlTokens r.
Proof.
  intros [(Hne & Ht & Hc) Hhead]. unfold closeTagOf.
  set (t := default (str "ins") (tagName options)) in *.
  change (str "</") with [60%N; 47%N]. change (str ">") with [62%N].
  replace (([60%N; 47%N] ++ t ++ [62%N]) ++ r)
    with (60%N :: (47%N :: t) ++ 62%N :: r)
    by (simpl; by rewrite <- !app_assoc).
  rewrite htmlTokens_tag; [done| |done].
  constructor; [done|exact Ht].
Qed.

Lemma htmlTokens_pieces (options : RenderOptions) (pieces : list Piece) :
  tagProper options ->
  htmlTokens (concat (pieceString options <$> pieces))
  = flat_map pieceTokens pieces.
Proof.
  intros Hp. induction pieces as [|p pieces IH]; [done|].
  cbn [fmap list_fmap concat flat_map]. destruct p as [cs|e].
  - cbn [pieceString pieceTokens].
    rewrite htmlTokens_text by apply escapeHtml_no_bracket. by rewrite IH.
  - cbn [pieceString pieceTokens]. destruct (type e).
    + rewrite htmlTokens_openTag by done. by rewrite IH.
    + rewrite htmlTokens_closeTag by done. by rewrite IH.
Qed.

Lemma tagProper_default : tagProper defaultOptions.
Proof. split; [apply tagSafe_default|]. simpl. discriminate. Qed.



Lemma countIf_pieceTokens (pieces : list Piece) :
  countIf isTOpen (flat_map pieceTokens pieces) = countIf isOpen (tagsOf pieces) /\
  countIf isTClose (flat_map pieceTokens pieces) = countIf isClose (tagsOf pieces).
Proof.
  induction pieces as [|p pieces [IH1 IH2]]; [done|].
  cbn [flat_map]. rewrite !countIf_app, IH1, IH2. destruct p as [cs|e].
  - change (tagsOf (PText cs :: pieces)) with (tagsOf pieces).
    cbn [pieceTokens].
    rewrite (countIf_none isTOpen (TChar <$> escapeHtml (join cs)))
      by (apply Forall_fmap, Forall_forall; done).
    rewrite (countIf_none isTClose (TChar <$> escapeHtml (join cs)))
      by (apply Forall_fmap, Forall_forall; done).
    done.
  - change (tagsOf (PTag e :: pieces)) with (e :: tagsOf pieces).
    rewrite !countIf_cons. unfold isOpen, isClose. cbn [pieceTokens].
    destruct (type e); by compute.
Qed.

(** ** Positions recovered from the string *)





Lemma slice_from_zero {A} (l : list A) (n : Z) :
  0 <= n -> slice l 0 n = take (Z.to_nat n) l.
Proof.
  intros Hn. rewrite slice_nonneg by lia.
  change (Z.to_nat 0) with 0%nat. by rewrite drop_0, Nat.sub_0_r.
Qed.





(** ** Nesting of the tags of the string *)








(** ** Tags of the string, counted *)

(** X8. Tags balance on every input: whatever the markers, in bounds or
    not, nested or crossing, the rendered string holds exactly one open tag
    and one close tag per enabled marker, and none for a disabled one (for
    tag and class names with which tags read as tags). *)
Theorem tags_balance (text : list N) (markers : list Marker)
    (options : RenderOptions) :
  tagProper options ->
  let html := renderWithMarkers text markers options in
  countIf isTOpen (htmlTokens html)
  = Z.of_nat (length (List.filter enabled markers)) /\
  countIf isTClose (htmlTokens html)
  = Z.of_nat (length (List.filter enabled markers)).
Proof.
  intros Hp html. unfold html.
  rewrite renderWithMarkers_pieces, htmlTokens_pieces by done.
  destruct (countIf_pieceTokens (renderPieces text markers)) as [-> ->].
  by destruct (pieces_tags_balance text markers options) as (_ & H1 & H2).
Qed.

Lemma tags_balance_witness :
  let markers := [mkMarker 0 5 true; mkMarker 3 8 true; mkMarker 1 2 false;
                  mkMarker 20 30 true] in
  let html := renderWithMarkers (str "abc<defghi") markers defaultOptions in
  tagProper defaultOptions /\
  countIf isTOpen (htmlTokens html) = 3 /\
  countIf isTClose (htmlTokens html) = 3.
Proof.
  intros markers html. split; [exact tagProper_default|].
  exact (tags_balance (str "abc<defghi") markers defaultOptions
           tagProper_default).
Defined.

(** ** What the tags of a marker wrap, in the string *)

Lemma concat_pieces_app (options : RenderOptions) (p q : list Piece) :
  concat (pieceString options <$> (p ++ q))
  = concat (pieceString options <$> p) ++ concat (pieceString options <$> q).
Proof. by rewrite fmap_app, concat_app. Qed.

Lemma decode_pieces (options : RenderOptions) (pieces : list Piece) :
  tagSafe options ->
  unescapeHtml (stripTags (concat (pieceString options <$> pieces)))
  = join (rawText pieces).
Proof. intros Hs. by rewrite stripTags_pieces, unescape_escape. Qed.

(** In the rendered string the tags of an enabled marker with
    [0 <= start <= end] stand around the code points [start .. end]. *)
Lemma marker_wrapped_string (text : list N) (markers : list Marker)
    (options : RenderOptions) (m : Marker) :
  tagProper options ->
  m ∈ markers -> enabled m = true -> 0 <= start m <= end_ m ->
  exists before inside after,
    renderWithMarkers text markers options
    = before ++ openTagOf options ++ inside ++ closeTagOf options ++ after /\
    htmlTokens (renderWithMarkers text markers options)
    = htmlTokens before ++ TOpen :: htmlTokens inside
        ++ TClose :: htmlTokens after /\
    unescapeHtml (stripTags before)
    = join (slice (codePoints text) 0 (start m)) /\
    unescapeHtml (stripTags inside)
    = join (slice (codePoints text) (start m) (end_ m + 1)).
Proof.
  intros Hp Hm Hen Hb. pose proof (proj1 Hp) as Hs.
  destruct (marker_wrapped text markers m Hm Hen Hb)
    as (p1 & p2 & p3 & Hdec & H1 & H2).
  exists (concat (pieceString options <$> p1)),
         (concat (pieceString options <$> p2)),
         (concat (pieceString options <$> p3)).
  assert (renderWithMarkers text markers options
          = concat (pieceString options <$> p1) ++ openTagOf options
              ++ concat (pieceString options <$> p2) ++ closeTagOf options
              ++ concat (pieceString options <$> p3)) as Hhtml.
  { rewrite renderWithMarkers_pieces, Hdec, concat_pieces_app.
    cbn [fmap list_fmap concat pieceString type].
    change (list_fmap Piece (list N) (pieceString options) (p2 ++ PTag (mkEvent (end_ m + 1) close) :: p3))
      with (pieceString options <$> (p2 ++ PTag (mkEvent (end_ m + 1) close) :: p3)).
    rewrite concat_pieces_app. cbn [fmap list_fmap concat pieceString type].
    done. }
  split; [exact Hhtml|]. split.
  - rewrite renderWithMarkers_pieces, htmlTokens_pieces, Hdec by done.
    rewrite !htmlTokens_pieces by done.
    rewrite flat_map_app. cbn [flat_map pieceTokens type app].
    rewrite flat_map_app. cbn [flat_map pieceTokens type app]. done.
  - rewrite !decode_pieces by done. by rewrite H1, H2.
Qed.

(** C10, as the code has it. Marker positions index the code points of the
    text: in the rendered string the tags of an in-bounds enabled marker
    stand around the code points [start .. end], after the first [start]
    code points. When every code point of the text is a single code unit
    this is the UTF-16 substring [text.slice(start, end + 1)]; when the
    code-point length differs from the UTF-16 length, an in-bounds marker
    exists (the one over all code points) whose wrapped text is not that
    substring. *)
Theorem positions_are_code_points (text : list N) (markers : list Marker)
    (options : RenderOptions) (m : Marker) :
  tagProper options ->
  m ∈ markers -> enabled m = true -> inBounds (codePoints text) m ->
  (exists before inside after,
     renderWithMarkers text markers options
     = before ++ openTagOf options ++ inside ++ closeTagOf options ++ after /\
     htmlTokens (renderWithMarkers text markers options)
     = htmlTokens before ++ TOpen :: htmlTokens inside
         ++ TClose :: htmlTokens after /\
     unescapeHtml (stripTags before)
     = join (slice (codePoints text) 0 (start m)) /\
     unescapeHtml (stripTags inside)
     = join (slice (codePoints text) (start m) (end_ m + 1))) /\
  (length (codePoints text) = length text ->
   join (slice (codePoints text) (start m) (end_ m + 1))
   = slice text (start m) (end_ m + 1)) /\
  (length (codePoints text) <> length text ->
   exists m',
     enabled m' = true /\ inBounds (codePoints text) m' /\
     exists before inside after,
       renderWithMarkers text [m'] options
       = before ++ openTagOf options ++ inside ++ closeTagOf options ++ after /\
       unescapeHtml (stripTags inside)
       = join (slice (codePoints text) (start m') (end_ m' + 1)) /\
       unescapeHtml (stripTags inside)
       <> slice text (start m') (end_ m' + 1)).
Proof.
  intros Hp Hm Hen (H0 & H1 & H2).
  split; [apply marker_wrapped_string; [done..|lia]|].
  split; [apply slice_single_units|].
  intros Hlen.
  set (n := Z.of_nat (length (codePoints text))).
  assert (1 <= n) as Hn.
  { unfold n. destruct (codePoints text) eqn:E; [|simpl; lia].
    apply codePoints_nil in E. subst text. done. }
  pose proof (codePoints_length text) as Hle.
  exists (mkMarker 0 (n - 1) true).
  split; [done|]. split; [unfold inBounds; simpl; lia|].
  destruct (marker_wrapped_string text [mkMarker 0 (n - 1) true] options
              (mkMarker 0 (n - 1) true) Hp)
    as (before & inside & after & Hhtml & _ & _ & Hin);
    [apply list_elem_of_here|done|simpl; lia|].
  exists before, inside, after. split; [exact Hhtml|]. split; [exact Hin|].
  rewrite Hin. cbn [start end_].
  replace (n - 1 + 1) with n by lia.
  rewrite !slice_from_zero by lia. unfold n. rewrite Nat2Z.id.
  rewrite firstn_all, join_codePoints.
  intros Heq. apply (f_equal length) in Heq.
  rewrite length_take in Heq. lia.
Qed.

Lemma positions_are_code_points_witness :
  let text := [55357; 56832; 97; 98]%N in
  let m := mkMarker 1 1 true in
  tagProper defaultOptions /\
  m ∈ [m] /\ enabled m = true /\ inBounds (codePoints text) m /\
  exists before inside after,
    renderWithMarkers text [m] defaultOptions
    = before ++ openTagOf defaultOptions ++ inside
        ++ closeTagOf defaultOptions ++ after /\
    unescapeHtml (stripTags before) = [55357; 56832]%N /\
    unescapeHtml (stripTags inside) = [97%N].
Proof.
  intros text m.
  assert (m ∈ [m]) as Hm by apply list_elem_of_here.
  assert (inBounds (codePoints text) m) as Hb by (unfold inBounds; simpl; lia).
  split; [exact tagProper_default|].
  split; [exact Hm|]. split; [reflexivity|]. split; [exact Hb|].
  destruct (positions_are_code_points text [m] defaultOptions m
              tagProper_default Hm eq_refl Hb)
    as [(before & inside & after & H1 & _ & H2 & H3) _].
  exists before, inside, after. split; [exact H1|]. split; [exact H2|exact H3].
Defined.

(** C10 as stated fails: in ["a" ++ U+1F600] the code-point length (2)
    differs from the UTF-16 length (3), the marker [0, 0] is in bounds and
    enabled, and what its tags wrap in the rendered string is the UTF-16
    substring [text.slice(0, 1)]. *)
Lemma code_point_slice_may_coincide :
  let text := [97; 55357; 56832]%N in
  let m := mkMarker 0 0 true in
  length (codePoints text) <> length text /\
  inBounds (codePoints text) m /\ enabled m = true /\
  renderWithMarkers text [m] defaultOptions
  = openTagOf defaultOptions ++ [97%N] ++ closeTagOf defaultOptions
    ++ [55357; 56832]%N /\
  [97%N] = join (slice (codePoints text) (start m) (end_ m + 1)) /\
  [97%N] = slice text (start m) (end_ m + 1).
Proof.
  intros text m. split; [simpl; lia|].
  split; [unfold inBounds; simpl; lia|].
  split; [reflexivity|]. split; [reflexivity|]. split; reflexivity.
Qed.

(** ** Nesting depth in the string *)

Lemma depth_between (markers : list Marker) (p1 p2 : list Piece) (a b i : Z) :
  tagsOf p1 ++ tagsOf p2 = sortedEvents markers ->
  Forall (fun e => index e <= a) (tagsOf p1) ->
  Forall (fun e => b <= index e) (tagsOf p2) ->
  a <= i < b ->
  Forall (fun m => enabled m = true -> start m <= end_ m + 1) markers ->
  depthAfter p1 = coverCount markers i.
Proof.
  intros Htags H1 H2 Hi Hm.
  assert (forall f : Event -> bool,
            countIf f (tagsOf p1)
            = countIf (fun e => f e && (index e <=? i))
                (flat_map markerEvents (List.filter enabled markers))) as Hcount.
  { intros f.
    rewrite <- (countIf_Permutation _ _ _ (sortedEvents_Permutation markers)).
    rewrite <- Htags, countIf_app.
    rewrite (countIf_none _ (tagsOf p2)).
    - rewrite Z.add_0_r. apply countIf_ext_in.
      eapply Forall_impl; [exact H1|]. intros e He. simpl in He.
      destruct (Z.leb_spec (index e) i); [|lia]. by rewrite andb_true_r.
    - eapply Forall_impl; [exact H2|]. intros e He. simpl in He.
      destruct (Z.leb_spec (index e) i); [lia|]. by rewrite andb_false_r. }
  unfold depthAfter, coverCount. rewrite !Hcount, !countIf_markerEvents.
  unfold isOpen, isClose. cbn [type index andb].
  rewrite !countIf_false, Z.add_0_r, Z.add_0_l.
  apply cover_count.
  apply Forall_forall. intros m Hin.
  apply list_elem_of_In, filter_In in Hin as [Hin Hen].
  rewrite Forall_forall in Hm. apply Hm; [by apply list_elem_of_In|done].
Qed.

(** Every position of the text lies in a text run of the sweep: the run
    is a slice [a .. b) around it, the text in front of the run ends at
    [a], the tags in front of it belong to events at or before [a], the
    tags after it to events at or after [b]. *)
Lemma sweep_run_at (chars : list (list N)) (events : list Event) (pos i : Z) :
  0 <= pos <= i -> i < Z.of_nat (length chars) ->
  StronglySorted eventLe events ->
  exists p1 p2 a b,
    sweep chars pos events = p1 ++ PText (slice chars a b) :: p2 /\
    pos <= a /\ a <= i < b /\
    rawText p1 = slice chars pos a /\
    Forall (fun e => index e <= a) (tagsOf p1) /\
    Forall (fun e => b <= index e) (tagsOf p2).
Proof.
  intros Hpos Hi. revert pos Hpos.
  induction events as [|e events IH]; intros pos Hpos Hs; cbn [sweep].
  - destruct (Z.ltb_spec pos (Z.of_nat (length chars))); [|lia].
    exists [], [], pos, (Z.of_nat (length chars)).
    split; [done|]. split; [lia|]. split; [lia|].
    split; [by rewrite slice_empty by lia|]. split; constructor.
  - apply StronglySorted_inv in Hs as [Hs Hall].
    assert (Forall (fun e' => index e <= index e') events) as Hlater.
    { eapply Forall_impl; [exact Hall|]. intros e' He'.
      unfold eventLe in He'. lia. }
    destruct (Z.gtb_spec (index e) pos) as [Hgt|Hle].
    + destruct (Z.lt_ge_cases i (index e)) as [Hlt|Hge].
      * exists [], (PTag e :: sweep chars (index e) events), pos, (index e).
        split; [done|]. split; [lia|]. split; [lia|].
        split; [by rewrite slice_empty by lia|]. split; [constructor|].
        change (tagsOf (PTag e :: sweep chars (index e) events))
          with (e :: tagsOf (sweep chars (index e) events)).
        rewrite tagsOf_sweep. constructor; [lia|done].
      * destruct (IH (index e)) as (q1 & q2 & a & b & Hdec & Ha & Hab & Hraw & H1 & H2);
          [lia|done|].
        exists (PText (slice chars pos (index e)) :: PTag e :: q1), q2, a, b.
        split; [by rewrite Hdec|]. split; [lia|]. split; [lia|]. split.
        { change (rawText (PText (slice chars pos (index e)) :: PTag e :: q1))
            with (slice chars pos (index e) ++ rawText q1).
          rewrite Hraw. apply slice_app; lia. }
        split; [|done].
        change (tagsOf (PText (slice chars pos (index e)) :: PTag e :: q1))
          with (e :: tagsOf q1).
        constructor; [lia|done].
    + destruct (IH pos) as (q1 & q2 & a & b & Hdec & Ha & Hab & Hraw & H1 & H2);
        [lia|done|].
      exists (PTag e :: q1), q2, a, b.
      split; [by rewrite Hdec|]. split; [lia|]. split; [lia|].
      split; [done|]. split; [|done].
      change (tagsOf (PTag e :: q1)) with (e :: tagsOf q1).
      constructor; [lia|done].
Qed.

Lemma slice_first {A} (l : list A) (i b : Z) (c : A) :
  0 <= i < b -> l !! Z.to_nat i = Some c ->
  slice l i b = c :: slice l (i + 1) b.
Proof.
  intros Hi Hc. rewrite !slice_nonneg by lia.
  rewrite (drop_S l c (Z.to_nat i) Hc).
  replace (Z.to_nat b - Z.to_nat i)%nat
    with (S (Z.to_nat b - Z.to_nat (i + 1))) by lia.
  cbn [take]. do 3 f_equal. lia.
Qed.

(** X11. The nesting depth is the number of markers over a position: for
    every code point of the text, the rendered string splits in front of
    that code point, escaped, into a part that decodes to the code points
    before it and in which the open tags outnumber the close tags by the
    number of enabled markers that cover the position. This holds for
    crossing markers and markers out of bounds too; it needs
    [start <= end + 1] of the enabled markers. *)
Theorem nesting_depth_counts_markers (text : list N) (markers : list Marker)
    (options : RenderOptions) (i : Z) :
  tagProper options ->
  Forall (fun m => enabled m = true -> start m <= end_ m + 1) markers ->
  0 <= i < Z.of_nat (length (codePoints text)) ->
  exists pre post c,
    codePoints text !! Z.to_nat i = Some c /\
    renderWithMarkers text markers options = pre ++ escapeHtml c ++ post /\
    unescapeHtml (stripTags pre)
    = join (take (Z.to_nat i) (codePoints text)) /\
    stringDepth pre = coverCount markers i.
Proof.
  intros Hp Hm Hi. pose proof (proj1 Hp) as Hsafe.
  set (chars := codePoints text) in *.
  destruct (lookup_lt_is_Some_2 chars (Z.to_nat i)) as [c Hc]; [lia|].
  destruct (sweep_run_at chars (sortedEvents markers) 0 i)
    as (p1 & p2 & a & b & Hdec & Ha & Hab & Hraw & H1 & H2);
    [lia|lia|apply sortedEvents_sorted|].
  assert (slice chars a b = slice chars a i ++ c :: slice chars (i + 1) b) as Hcs.
  { rewrite <- (slice_app chars a i b) by lia.
    by rewrite (slice_first chars i b c) by (done || lia). }
  set (q1 := p1 ++ [PText (slice chars a i)]).
  exists (concat (pieceString options <$> q1)),
         (escapeHtml (join (slice chars (i + 1) b))
          ++ concat (pieceString options <$> p2)), c.
  split; [exact Hc|]. split.
  { rewrite renderWithMarkers_pieces. unfold renderPieces. fold chars.
    rewrite Hdec. unfold q1. rewrite !concat_pieces_app.
    cbn [fmap list_fmap concat pieceString]. rewrite Hcs. unfold join.
    rewrite concat_app. cbn [concat]. rewrite !escapeHtml_app.
    rewrite app_nil_r, <- !app_assoc. done. }
  split.
  { rewrite decode_pieces by done. unfold q1. rewrite rawText_app, Hraw.
    change (rawText [PText (slice chars a i)]) with (slice chars a i ++ []).
    rewrite app_nil_r, slice_app by lia. by rewrite slice_from_zero by lia. }
  unfold stringDepth. rewrite htmlTokens_pieces by done.
  destruct (countIf_pieceTokens q1) as [-> ->].
  assert (tagsOf q1 = tagsOf p1) as Hq.
  { unfold q1. rewrite tagsOf_app. apply app_nil_r. }
  change (countIf isOpen (tagsOf q1) - countIf isClose (tagsOf q1))
    with (depthAfter q1).
  unfold depthAfter. rewrite Hq.
  apply (depth_between markers p1 p2 a b i); try done.
  rewrite <- (tagsOf_sweep chars (sortedEvents markers) 0), Hdec.
  by rewrite tagsOf_app.
Qed.

Lemma nesting_depth_counts_markers_witness :
  let text := str "abcdef" in
  let markers := [mkMarker 0 5 true; mkMarker 2 3 true; mkMarker 3 4 true] in
  tagProper defaultOptions /\
  Forall (fun m => enabled m = true -> start m <= end_ m + 1) markers /\
  0 <= 3 < Z.of_nat (length (codePoints text)) /\
  exists pre post c,
    codePoints text !! 3%nat = Some c /\
    renderWithMarkers text markers defaultOptions = pre ++ escapeHtml c ++ post /\
    unescapeHtml (stripTags pre) = str "abc" /\
    stringDepth pre = 3.
Proof.
  intros text markers.
  assert (Forall (fun m => enabled m = true -> start m <= end_ m + 1) markers)
    as Hm by (repeat constructor; simpl; lia).
  assert (0 <= 3 < Z.of_nat (length (codePoints text))) as Hi by (simpl; lia).
  split; [exact tagProper_default|]. split; [exact Hm|]. split; [exact Hi|].
  exact (nesting_depth_counts_markers text markers defaultOptions 3
           tagProper_default Hm Hi).
Defined.
